(** * The research agent of [backend/src/agent]: a shallow embedding

    The development follows the Python sources file by file:
    - [Py]                the Python primitives the code relies on
                          (exceptions, slices, [split], [in], [replace],
                          f-strings);
    - [genai]             the shape of the evidence provider's response;
    - [utils]             [resolve_urls], [insert_citation_markers],
                          [get_citations];
    - [configuration]     [Configuration.from_runnable_config];
    - [tools_and_schemas] the structured output of the reflection call;
    - [state]             the keys declared in [state.py] and their reducers;
    - [graph]             the nodes and routing functions of [graph.py], and
                          the loop that the compiled graph wires between them;
    - [reference]         definitions that only serve to state properties.

    Integers are [Z] (Python's [int] is unbounded), strings are [string],
    dictionaries used as maps are [gmap], exceptions are carried by
    [Py.result].  The facts proved about each part follow the definitions. *)

From Stdlib Require Import ZArith String Ascii DecimalString.
From Stdlib Require DecimalZ DecimalPos.
From stdpp Require Import base list gmap strings.

Open Scope Z_scope.

(* ================================================================== *)
(** * Python primitives *)
(* ================================================================== *)

Module Py.

(** The exceptions that the modelled code can raise. *)
Inductive exc : Type :=
| IndexError | AttributeError | NameError | TypeError | KeyError
| ValidationError.

Inductive result (A : Type) : Type :=
| Ok (a : A)
| Raise (e : exc).
Arguments Ok {A} a.
Arguments Raise {A} e.

(** Sequencing: an exception aborts what follows ([x ← r; k]). *)
#[global] Instance result_bind : MBind result := λ A B k r,
  match r with
  | Ok a => k a
  | Raise e => Raise e
  end.

Definition is_ok {A} (r : result A) : bool :=
  match r with Ok _ => true | Raise _ => false end.

(** [[f(x) for x in l]], stopping at the first exception. *)
Fixpoint traverse {A B} (f : A → result B) (l : list A) : result (list B) :=
  match l with
  | [] => Ok []
  | x :: l' =>
      match f x with
      | Raise e => Raise e
      | Ok y =>
          match traverse f l' with
          | Raise e => Raise e
          | Ok ys => Ok (y :: ys)
          end
      end
  end.

(** [a.b] on a reference that may be [None]. *)
Definition attr {A} (o : option A) : result A :=
  match o with
  | Some a => Ok a
  | None => Raise AttributeError
  end.

(** [state["k"]] on a key that may be unset. *)
Definition item {A} (o : option A) : result A :=
  match o with
  | Some a => Ok a
  | None => Raise KeyError
  end.

(** [str(n)] / [f"{n}"] for an integer. *)
Definition str_of_int (z : Z) : string :=
  NilZero.string_of_int (Z.to_int z).

(** [f"{x}"] for a string that may be [None]. *)
Definition str_of_opt (o : option string) : string :=
  match o with
  | Some s => s
  | None => "None"
  end.

(** ** Slices of strings *)

Fixpoint str_take (n : nat) (s : string) : string :=
  match n, s with
  | S n', String c s' => String c (str_take n' s')
  | _, _ => EmptyString
  end.

Fixpoint str_drop (n : nat) (s : string) : string :=
  match n, s with
  | S n', String _ s' => str_drop n' s'
  | _, _ => s
  end.

(** The position a slice bound [i] denotes in a sequence of length [len]:
    negative bounds count from the end, and everything is clamped. *)
Definition slice_bound (len : nat) (i : Z) : nat :=
  if i <? 0 then Z.to_nat (Z.max 0 (Z.of_nat len + i))
  else Z.to_nat (Z.min i (Z.of_nat len)).

(** [s[:i]] *)
Definition slice_to (s : string) (i : Z) : string :=
  str_take (slice_bound (String.length s) i) s.

(** [s[i:]] *)
Definition slice_from (s : string) (i : Z) : string :=
  str_drop (slice_bound (String.length s) i) s.

(** ** Lists *)

(** [l[i]]: negative indices count from the end, out of range raises. *)
Definition index {A} (l : list A) (i : Z) : result A :=
  let n := Z.of_nat (length l) in
  let j := if i <? 0 then i + n else i in
  if (0 <=? j) && (j <? n) then
    match l !! Z.to_nat j with
    | Some a => Ok a
    | None => Raise IndexError
    end
  else Raise IndexError.

(** [l[:-1]] *)
Definition drop_last {A} (l : list A) : list A :=
  take (length l - 1)%nat l.

(** [enumerate(l, start)] *)
Fixpoint enumerate_from {A} (start : nat) (l : list A) : list (nat * A) :=
  match l with
  | [] => []
  | x :: l' => (start, x) :: enumerate_from (S start) l'
  end.

Definition enumerate {A} (l : list A) : list (nat * A) := enumerate_from 0 l.

(** ** [str.split], [in], [str.replace], [str.upper] *)

(** [s.split(sep)] for a one-character separator. *)
Fixpoint split (sep : ascii) (s : string) : list string :=
  match s with
  | EmptyString => [EmptyString]
  | String c s' =>
      if Ascii.eqb c sep then EmptyString :: split sep s'
      else match split sep s' with
           | w :: ws => String c w :: ws
           | [] => [String c EmptyString]
           end
  end.

(** [sub in s] *)
Fixpoint contains (sub s : string) : bool :=
  String.prefix sub s ||
  match s with
  | EmptyString => false
  | String _ s' => contains sub s'
  end.

(** Left-to-right replacement of the non-overlapping occurrences of a
    non-empty [old]; [skip] counts the characters of a matched occurrence
    that are still to be passed over. *)
Fixpoint replace_from (old new : string) (skip : nat) (s : string) : string :=
  match s with
  | EmptyString => EmptyString
  | String c s' =>
      match skip with
      | S k => replace_from old new k s'
      | O =>
          if String.prefix old s
          then new +:+ replace_from old new (String.length old - 1) s'
          else String c (replace_from old new O s')
      end
  end.

Fixpoint around (new s : string) : string :=
  match s with
  | EmptyString => EmptyString
  | String c s' => String c (new +:+ around new s')
  end.

(** [s.replace(old, new)]; an empty [old] matches between all characters. *)
Definition replace (s old new : string) : string :=
  match old with
  | EmptyString => new +:+ around new s
  | String _ _ => replace_from old new 0 s
  end.

Definition upper_ascii (c : ascii) : ascii :=
  let n := nat_of_ascii c in
  if (97 <=? n)%nat && (n <=? 122)%nat then ascii_of_nat (n - 32) else c.

Fixpoint upper (s : string) : string :=
  match s with
  | EmptyString => EmptyString
  | String c s' => String (upper_ascii c) (upper s')
  end.

End Py.

Import Py.

(* ================================================================== *)
(** * The evidence provider's response ([google.genai] types)

  Only the attributes the agent reads.  An attribute that the provider
  may leave unset is an [option]; a chunk's [uri] is taken as present. *)
(* ================================================================== *)

Module genai.

Record Web : Type := {
  uri : string;
  title : option string;
}.

Record GroundingChunk : Type := {
  web : option Web;
}.

Record Segment : Type := {
  start_index : option Z;
  end_index : option Z;
}.

Record GroundingSupport : Type := {
  segment : option Segment;
  grounding_chunk_indices : option (list Z);
}.

Record GroundingMetadata : Type := {
  grounding_chunks : option (list GroundingChunk);
  grounding_supports : option (list GroundingSupport);
}.

Record Candidate : Type := {
  grounding_metadata : option GroundingMetadata;
}.

Record Response : Type := {
  text : string;
  candidates : option (list Candidate);
}.

End genai.

(* ================================================================== *)
(** * [utils.py] *)
(* ================================================================== *)

Module utils.

(** One entry of a citation's ["segments"]: the dictionary
    [{"label": .., "short_url": .., "value": ..}]. *)
Record Source : Type := {
  label : string;
  short_url : option string;
  value : string;
}.

(** A citation: [{"start_index": .., "end_index": .., "segments": [..]}]. *)
Record Citation : Type := {
  start_index : Z;
  end_index : Z;
  segments : list Source;
}.

(** ** [resolve_urls] *)

Definition prefix : string := "https://vertexaisearch.cloud.google.com/id/".

(** [f"{prefix}{id}-{idx}"] *)
Definition short_url_of (id : Z) (idx : nat) : string :=
  prefix +:+ str_of_int id +:+ "-" +:+ str_of_int (Z.of_nat idx).

(** The loop [for idx, url in enumerate(urls)] over [resolved_map]. *)
Fixpoint resolve_loop (id : Z) (urls : list (nat * string))
    (resolved_map : gmap string string) : gmap string string :=
  match urls with
  | [] => resolved_map
  | (idx, url) :: rest =>
      resolve_loop id rest
        (match resolved_map !! url with
         | None => <[url := short_url_of id idx]> resolved_map
         | Some _ => resolved_map
         end)
  end.

Definition site_uri (site : genai.GroundingChunk) : result string :=
  w ← attr (genai.web site); Ok (genai.uri w).

Definition resolve_urls (urls_to_resolve : list genai.GroundingChunk) (id : Z)
    : result (gmap string string) :=
  urls ← traverse site_uri urls_to_resolve;
  Ok (resolve_loop id (enumerate urls) ∅).

(** ** [insert_citation_markers] *)

(** The sort key [(c["end_index"], c["start_index"])], compared as tuples. *)
Definition key_ltb (a b : Citation) : bool :=
  (end_index a <? end_index b) ||
  ((end_index a =? end_index b) && (start_index a <? start_index b)).

(** [sorted(.., key=.., reverse=True)]: descending and stable, hence equal
    to the insertion sort that places an element before the first one
    whose key is not greater. *)
Fixpoint insert_desc (c : Citation) (l : list Citation) : list Citation :=
  match l with
  | [] => [c]
  | d :: l' => if key_ltb c d then d :: insert_desc c l' else c :: d :: l'
  end.

Fixpoint sorted_desc (l : list Citation) : list Citation :=
  match l with
  | [] => []
  | c :: l' => insert_desc c (sorted_desc l')
  end.

(** [marker_to_insert], built up segment by segment. *)
Definition marker_to_insert (citation_info : Citation) : string :=
  foldl (λ marker segment,
           marker +:+ " [" +:+ label segment +:+ "]("
                  +:+ str_of_opt (short_url segment) +:+ ")")
        "" (segments citation_info).

(** One iteration of the insertion loop. *)
Definition insert_marker (modified_text : string) (citation_info : Citation)
    : string :=
  let end_idx := end_index citation_info in
  slice_to modified_text end_idx
    +:+ marker_to_insert citation_info
    +:+ slice_from modified_text end_idx.

Definition insert_citation_markers (text : string)
    (citations_list : list Citation) : string :=
  foldl insert_marker text (sorted_desc citations_list).

(** ** [get_citations] *)

(** [title.split(".")[:-1][0]] *)
Definition label_of_title (title : string) : result string :=
  index (drop_last (split "." title)) 0.

(** The body of the [try] block for one chunk index. *)
Definition segment_of_index (chunks : option (list genai.GroundingChunk))
    (resolved_urls_map : gmap string string) (ind : Z) : result Source :=
  match chunks with
  | None => Raise TypeError
  | Some chunks =>
      chunk ← index chunks ind;
      w ← attr (genai.web chunk);
      let resolved_url := resolved_urls_map !! genai.uri w in
      title ← attr (genai.title w);
      lbl ← label_of_title title;
      Ok {| label := lbl; short_url := resolved_url; value := genai.uri w |}
  end.

(** [for ind in ..: try: .. except (IndexError, AttributeError, NameError): pass] *)
Fixpoint collect_segments (chunks : option (list genai.GroundingChunk))
    (resolved_urls_map : gmap string string) (inds : list Z)
    (acc : list Source) : result (list Source) :=
  match inds with
  | [] => Ok acc
  | ind :: rest =>
      match segment_of_index chunks resolved_urls_map ind with
      | Ok s => collect_segments chunks resolved_urls_map rest (acc ++ [s])
      | Raise IndexError | Raise AttributeError | Raise NameError =>
          collect_segments chunks resolved_urls_map rest acc
      | Raise e => Raise e
      end
  end.

(** One iteration of [for support in ..grounding_supports]: [None] when the
    support is skipped by [continue]. *)
Definition citation_of_support (chunks : option (list genai.GroundingChunk))
    (resolved_urls_map : gmap string string)
    (support : genai.GroundingSupport) : result (option Citation) :=
  match genai.segment support with
  | None => Ok None
  | Some seg =>
      let start := default 0 (genai.start_index seg) in
      match genai.end_index seg with
      | None => Ok None
      | Some e =>
          segs ← match genai.grounding_chunk_indices support with
                 | Some (ind :: inds) =>
                     collect_segments chunks resolved_urls_map (ind :: inds) []
                 | _ => Ok []
                 end;
          Ok (Some {| start_index := start; end_index := e;
                      segments := segs |})
      end
  end.

Fixpoint citations_of_supports (chunks : option (list genai.GroundingChunk))
    (resolved_urls_map : gmap string string)
    (supports : list genai.GroundingSupport) : result (list Citation) :=
  match supports with
  | [] => Ok []
  | support :: rest =>
      c ← citation_of_support chunks resolved_urls_map support;
      cs ← citations_of_supports chunks resolved_urls_map rest;
      Ok (match c with Some c => c :: cs | None => cs end)
  end.

(** The provider's objects always carry their attributes, so the [hasattr]
    tests hold and the guards reduce to the [None] / emptiness tests. *)
Definition get_citations (response : genai.Response)
    (resolved_urls_map : gmap string string) : result (list Citation) :=
  match genai.candidates response with
  | None | Some [] => Ok []
  | Some (candidate :: _) =>
      match genai.grounding_metadata candidate with
      | None => Ok []
      | Some md =>
          match genai.grounding_supports md with
          | None => Raise TypeError
          | Some supports =>
              citations_of_supports (genai.grounding_chunks md)
                resolved_urls_map supports
          end
      end
  end.

End utils.

(* ================================================================== *)
(** * [configuration.py] *)
(* ================================================================== *)

Module configuration.

(** A value found in [config["configurable"]] ([Any]). *)
Inductive value : Type :=
| VInt (z : Z)
| VStr (s : string).

Record Configuration : Type := {
  query_generator_model : string;
  reflection_model : string;
  answer_model : string;
  number_of_initial_queries : Z;
  max_research_loops : Z;
}.

(** The [Field(default=..)] declarations. *)
Definition defaults : Configuration := {|
  query_generator_model := "gemini-2.0-flash";
  reflection_model := "gemini-2.5-flash";
  answer_model := "gemini-2.5-pro";
  number_of_initial_queries := 3;
  max_research_loops := 2;
|}.

(** A [RunnableConfig]: only its ["configurable"] entry is read. *)
Record RunnableConfig : Type := {
  configurable : option (gmap string value);
}.

Section from_runnable_config.

(** Pydantic's conversion of a string to an [int] field ([None]: rejected). *)
Variable int_of_str : string → option Z.

(** Validation of one keyword argument by the model's field type. *)
Definition validate_str (v : value) : result string :=
  match v with
  | VStr s => Ok s
  | VInt _ => Raise ValidationError
  end.

Definition validate_int (v : value) : result Z :=
  match v with
  | VInt z => Ok z
  | VStr s =>
      match int_of_str s with
      | Some z => Ok z
      | None => Raise ValidationError
      end
  end.

(** [os.environ.get(name.upper(), configurable.get(name))] *)
Definition raw_value (environ : gmap string string)
    (configurable : gmap string value) (name : string) : option value :=
  match environ !! upper name with
  | Some s => Some (VStr s)
  | None => configurable !! name
  end.

(** The constructor call on the filtered [values], for one field: an entry
    that is [None] was filtered out and leaves the declared default. *)
Definition field {A} (validate : value → result A) (raw : option value)
    (dflt : A) : result A :=
  match raw with
  | Some v => validate v
  | None => Ok dflt
  end.

Definition from_runnable_config (environ : gmap string string)
    (config : option RunnableConfig) : result Configuration :=
  let configurable :=
    match config with
    | Some c => default ∅ (configurable c)
    | None => ∅
    end in
  let raw_values := raw_value environ configurable in
  qgm ← field validate_str (raw_values "query_generator_model")
           (query_generator_model defaults);
  rm ← field validate_str (raw_values "reflection_model")
          (reflection_model defaults);
  am ← field validate_str (raw_values "answer_model") (answer_model defaults);
  niq ← field validate_int (raw_values "number_of_initial_queries")
           (number_of_initial_queries defaults);
  mrl ← field validate_int (raw_values "max_research_loops")
           (max_research_loops defaults);
  Ok {| query_generator_model := qgm; reflection_model := rm;
        answer_model := am; number_of_initial_queries := niq;
        max_research_loops := mrl |}.

End from_runnable_config.

End configuration.

(* ================================================================== *)
(** * [tools_and_schemas.py] *)
(* ================================================================== *)

Module tools_and_schemas.

(** The structured output of the reflection call. *)
Record Reflection : Type := {
  is_sufficient : bool;
  knowledge_gap : string;
  follow_up_queries : list string;
}.

End tools_and_schemas.

(* ================================================================== *)
(** * [state.py]

    The compiled graph keeps one value per key of the declared [TypedDict]s;
    [OverallState], [ReflectionState] and [QueryGenerationState] are views
    of that store.  A key declared [Annotated[list, operator.add]] (or
    [add_messages]) is a list to which every update is appended; any other
    key holds the last value written, and is unset until then. *)
(* ================================================================== *)

Module state.

Inductive Message : Type :=
| HumanMessage (content : string)
| AIMessage (content : string).

Record State : Type := {
  messages : list Message;
  search_query : list string;
  web_research_result : list string;
  sources_gathered : list utils.Source;
  initial_search_query_count : option Z;
  max_research_loops : option Z;
  research_loop_count : option Z;
  reasoning_model : option string;
  is_sufficient : option bool;
  knowledge_gap : option string;
  follow_up_queries : list string;
  number_of_ran_queries : option Z;
}.

(** The compiled graph shows a node or a routing function the keys of the
    class that types its [state] parameter, read from the store.
    [ReflectionState] declares five keys: a function typed with it finds no
    other key in its [state] — [max_research_loops] among them, which
    [state.get] then reads as [None]. *)
Module ReflectionState.
Definition view (s : State) : State :=
  {| messages := []; search_query := []; web_research_result := [];
     sources_gathered := [];
     initial_search_query_count := None;
     max_research_loops := None;
     research_loop_count := research_loop_count s;
     reasoning_model := None;
     is_sufficient := is_sufficient s;
     knowledge_gap := knowledge_gap s;
     follow_up_queries := follow_up_queries s;
     number_of_ran_queries := number_of_ran_queries s |}.
End ReflectionState.

(** The payload of one parallel search task. *)
Module WebSearchState.
Record t : Type := {
  search_query : string;
  id : Z;
}.
End WebSearchState.

(** One entry of the dictionary a node returns. *)
Inductive write : Type :=
| W_messages (v : list Message)
| W_search_query (v : list string)
| W_web_research_result (v : list string)
| W_sources_gathered (v : list utils.Source)
| W_research_loop_count (v : Z)
| W_is_sufficient (v : bool)
| W_knowledge_gap (v : string)
| W_follow_up_queries (v : list string)
| W_number_of_ran_queries (v : Z).

(** The reducer of each key. *)
Definition apply_write (s : State) (w : write) : State :=
  match w with
  | W_messages v =>
      {| messages := messages s ++ v; search_query := search_query s;
         web_research_result := web_research_result s;
         sources_gathered := sources_gathered s;
         initial_search_query_count := initial_search_query_count s;
         max_research_loops := max_research_loops s;
         research_loop_count := research_loop_count s;
         reasoning_model := reasoning_model s;
         is_sufficient := is_sufficient s;
         knowledge_gap := knowledge_gap s;
         follow_up_queries := follow_up_queries s;
         number_of_ran_queries := number_of_ran_queries s |}
  | W_search_query v =>
      {| messages := messages s; search_query := search_query s ++ v;
         web_research_result := web_research_result s;
         sources_gathered := sources_gathered s;
         initial_search_query_count := initial_search_query_count s;
         max_research_loops := max_research_loops s;
         research_loop_count := research_loop_count s;
         reasoning_model := reasoning_model s;
         is_sufficient := is_sufficient s;
         knowledge_gap := knowledge_gap s;
         follow_up_queries := follow_up_queries s;
         number_of_ran_queries := number_of_ran_queries s |}
  | W_web_research_result v =>
      {| messages := messages s; search_query := search_query s;
         web_research_result := web_research_result s ++ v;
         sources_gathered := sources_gathered s;
         initial_search_query_count := initial_search_query_count s;
         max_research_loops := max_research_loops s;
         research_loop_count := research_loop_count s;
         reasoning_model := reasoning_model s;
         is_sufficient := is_sufficient s;
         knowledge_gap := knowledge_gap s;
         follow_up_queries := follow_up_queries s;
         number_of_ran_queries := number_of_ran_queries s |}
  | W_sources_gathered v =>
      {| messages := messages s; search_query := search_query s;
         web_research_result := web_research_result s;
         sources_gathered := sources_gathered s ++ v;
         initial_search_query_count := initial_search_query_count s;
         max_research_loops := max_research_loops s;
         research_loop_count := research_loop_count s;
         reasoning_model := reasoning_model s;
         is_sufficient := is_sufficient s;
         knowledge_gap := knowledge_gap s;
         follow_up_queries := follow_up_queries s;
         number_of_ran_queries := number_of_ran_queries s |}
  | W_research_loop_count v =>
      {| messages := messages s; search_query := search_query s;
         web_research_result := web_research_result s;
         sources_gathered := sources_gathered s;
         initial_search_query_count := initial_search_query_count s;
         max_research_loops := max_research_loops s;
         research_loop_count := Some v;
         reasoning_model := reasoning_model s;
         is_sufficient := is_sufficient s;
         knowledge_gap := knowledge_gap s;
         follow_up_queries := follow_up_queries s;
         number_of_ran_queries := number_of_ran_queries s |}
  | W_is_sufficient v =>
      {| messages := messages s; search_query := search_query s;
         web_research_result := web_research_result s;
         sources_gathered := sources_gathered s;
         initial_search_query_count := initial_search_query_count s;
         max_research_loops := max_research_loops s;
         research_loop_count := research_loop_count s;
         reasoning_model := reasoning_model s; is_sufficient := Some v;
         knowledge_gap := knowledge_gap s;
         follow_up_queries := follow_up_queries s;
         number_of_ran_queries := number_of_ran_queries s |}
  | W_knowledge_gap v =>
      {| messages := messages s; search_query := search_query s;
         web_research_result := web_research_result s;
         sources_gathered := sources_gathered s;
         initial_search_query_count := initial_search_query_count s;
         max_research_loops := max_research_loops s;
         research_loop_count := research_loop_count s;
         reasoning_model := reasoning_model s;
         is_sufficient := is_sufficient s; knowledge_gap := Some v;
         follow_up_queries := follow_up_queries s;
         number_of_ran_queries := number_of_ran_queries s |}
  | W_follow_up_queries v =>
      {| messages := messages s; search_query := search_query s;
         web_research_result := web_research_result s;
         sources_gathered := sources_gathered s;
         initial_search_query_count := initial_search_query_count s;
         max_research_loops := max_research_loops s;
         research_loop_count := research_loop_count s;
         reasoning_model := reasoning_model s;
         is_sufficient := is_sufficient s;
         knowledge_gap := knowledge_gap s;
         follow_up_queries := follow_up_queries s ++ v;
         number_of_ran_queries := number_of_ran_queries s |}
  | W_number_of_ran_queries v =>
      {| messages := messages s; search_query := search_query s;
         web_research_result := web_research_result s;
         sources_gathered := sources_gathered s;
         initial_search_query_count := initial_search_query_count s;
         max_research_loops := max_research_loops s;
         research_loop_count := research_loop_count s;
         reasoning_model := reasoning_model s;
         is_sufficient := is_sufficient s;
         knowledge_gap := knowledge_gap s;
         follow_up_queries := follow_up_queries s;
         number_of_ran_queries := Some v |}
  end.

(** Merging a node's returned dictionary into the store. *)
Definition merge (s : State) (update : list write) : State :=
  foldl apply_write s update.

End state.

(* ================================================================== *)
(** * [graph.py] *)
(* ================================================================== *)

Module graph.

Import state.

(** [Send(node, arg)] *)
Record Send : Type := {
  node : string;
  arg : WebSearchState.t;
}.

(** What a routing function returns: a node name or a list of [Send]s. *)
Inductive Route : Type :=
| Goto (name : string)
| Sends (batch : list Send).

(** In every node [configurable] is the value of
    [Configuration.from_runnable_config(config)]; the calls to the language
    model and to the search tool are arguments ([result_query], [response],
    [result], [content]). *)

Definition generate_query (state : State)
    (configurable : configuration.Configuration)
    (result_query : list string) : list write :=
  [W_search_query result_query].

(** The [number_queries] that [generate_query] puts in its prompt. *)
Definition number_queries (state : State)
    (configurable : configuration.Configuration) : Z :=
  match initial_search_query_count state with
  | Some n => n
  | None => configuration.number_of_initial_queries configurable
  end.

Definition continue_to_web_research (state : State) : list Send :=
  map (λ '(idx, search_query),
         {| node := "web_research";
            arg := {| WebSearchState.search_query := search_query;
                      WebSearchState.id := Z.of_nat idx |} |})
      (enumerate (search_query state)).

Definition web_research (state : WebSearchState.t)
    (configurable : configuration.Configuration)
    (response : genai.Response) : result (list write) :=
  candidates ← match genai.candidates response with
               | Some l => Ok l
               | None => Raise TypeError
               end;
  candidate ← index candidates 0;
  md ← attr (genai.grounding_metadata candidate);
  resolved_urls ← match genai.grounding_chunks md with
                  | Some chunks =>
                      utils.resolve_urls chunks (WebSearchState.id state)
                  | None => Raise TypeError
                  end;
  citations ← utils.get_citations response resolved_urls;
  let modified_text :=
    utils.insert_citation_markers (genai.text response) citations in
  let sources_gathered := flat_map utils.segments citations in
  Ok [W_sources_gathered sources_gathered;
      W_search_query [WebSearchState.search_query state];
      W_web_research_result [modified_text]].

Definition reflection (state : State)
    (configurable : configuration.Configuration)
    (result : tools_and_schemas.Reflection) : list write :=
  let research_loop_count := default 0 (research_loop_count state) + 1 in
  [W_is_sufficient (tools_and_schemas.is_sufficient result);
   W_knowledge_gap (tools_and_schemas.knowledge_gap result);
   W_follow_up_queries (tools_and_schemas.follow_up_queries result);
   W_research_loop_count research_loop_count;
   W_number_of_ran_queries (Z.of_nat (length (search_query state)))].

(** [state.get("max_research_loops")] if set, else the configured value. *)
Definition effective_max_research_loops (state : State)
    (configurable : configuration.Configuration) : Z :=
  match max_research_loops state with
  | Some m => m
  | None => configuration.max_research_loops configurable
  end.

Definition evaluate_research (state : State)
    (configurable : configuration.Configuration) : result Route :=
  let max_research_loops := effective_max_research_loops state configurable in
  sufficient ← item (is_sufficient state);
  reached ← (if sufficient : bool then Ok true
             else count ← item (research_loop_count state);
                  Ok (max_research_loops <=? count));
  if reached : bool then Ok (Goto "finalize_answer")
  else
    batch ← traverse
      (λ '(idx, follow_up_query),
         ran ← item (number_of_ran_queries state);
         Ok {| node := "web_research";
               arg := {| WebSearchState.search_query := follow_up_query;
                         WebSearchState.id := ran + Z.of_nat idx |} |})
      (enumerate (follow_up_queries state));
    Ok (Sends batch).

(** The loop [for source in state["sources_gathered"]] of [finalize_answer],
    over [result.content] and [unique_sources]. *)
Fixpoint substitute_sources (sources : list utils.Source) (content : string)
    (unique_sources : list utils.Source)
    : result (string * list utils.Source) :=
  match sources with
  | [] => Ok (content, unique_sources)
  | source :: rest =>
      match utils.short_url source with
      | None => Raise TypeError
      | Some short =>
          if contains short content
          then substitute_sources rest
                 (replace content short (utils.value source))
                 (unique_sources ++ [source])
          else substitute_sources rest content unique_sources
      end
  end.

Definition finalize_answer (state : State)
    (configurable : configuration.Configuration)
    (content : string) : result (list write) :=
  '(content, unique_sources) ←
    substitute_sources (sources_gathered state) content [];
  Ok [W_messages [AIMessage content]; W_sources_gathered unique_sources].

(** ** The compiled graph

    [START → generate_query → web_research* → reflection →
     (web_research* → reflection)* → finalize_answer → END]. *)

(** The external collaborators of one run. *)
Record World : Type := {
  query_writer : Z → list string;              (* structured query generation *)
  web_searcher : WebSearchState.t → genai.Response;       (* grounded search *)
  reasoner : nat → tools_and_schemas.Reflection;    (* the n-th reflection call *)
}.

(** What an observer of the run sees, in order. *)
Inductive event : Type :=
| Dispatched (task : Send)
| Reflected (after : State).

Inductive status : Type :=
| Finalizing            (* routed to [finalize_answer] *)
| Ended                 (* no task was sent: the run ends short of it *)
| Crashed (e : exc)     (* an exception left a node *)
| OutOfFuel.

Record Outcome : Type := {
  final_status : status;
  final_state : State;
  trace : list event;
}.

(** One batch of parallel [web_research] tasks: each runs on its own payload
    and the returned dictionaries are merged through the reducers. *)
Fixpoint run_batch (w : World) (configurable : configuration.Configuration)
    (batch : list Send) (st : State) : result State :=
  match batch with
  | [] => Ok st
  | task :: rest =>
      update ← web_research (arg task) configurable (web_searcher w (arg task));
      run_batch w configurable rest (merge st update)
  end.

Definition reflections (tr : list event) : list State :=
  omap (λ ev, match ev with Reflected s => Some s | Dispatched _ => None end) tr.

Definition dispatched (tr : list event) : list Send :=
  omap (λ ev, match ev with Dispatched t => Some t | Reflected _ => None end) tr.

(** The edges that [graph.py] declares, as the graph library schedules
    them.  The [Send]s a routing function returns are run as one batch of
    parallel tasks; the edge [web_research → reflection] runs [reflection]
    once, when the whole batch has completed; the routing function
    [evaluate_research], typed [ReflectionState], is then called on that view
    of the store.  A routing function that returns no [Send] schedules
    nothing: the run ends there, short of [finalize_answer].  An exception
    that leaves a node ends the run.  [fuel] is the number of rounds
    observed. *)
Fixpoint research_loop (fuel : nat) (w : World)
    (configurable : configuration.Configuration)
    (st : State) (batch : list Send) (tr : list event) : Outcome :=
  let tr := tr ++ map Dispatched batch in
  match fuel with
  | O => {| final_status := OutOfFuel; final_state := st; trace := tr |}
  | S fuel' =>
      match batch with
      | [] => {| final_status := Ended; final_state := st; trace := tr |}
      | _ :: _ =>
          match run_batch w configurable batch st with
          | Raise e =>
              {| final_status := Crashed e; final_state := st; trace := tr |}
          | Ok st =>
              let result := reasoner w (length (reflections tr)) in
              let st := merge st (reflection st configurable result) in
              let tr := tr ++ [Reflected st] in
              match evaluate_research (ReflectionState.view st) configurable with
              | Raise e =>
                  {| final_status := Crashed e; final_state := st; trace := tr |}
              | Ok (Goto _) =>
                  {| final_status := Finalizing; final_state := st; trace := tr |}
              | Ok (Sends batch) =>
                  research_loop fuel' w configurable st batch tr
              end
          end
      end
  end.

Definition run (fuel : nat) (w : World)
    (configurable : configuration.Configuration) (st : State) : Outcome :=
  let result_query := query_writer w (number_queries st configurable) in
  let st := merge st (generate_query st configurable result_query) in
  research_loop fuel w configurable st (continue_to_web_research st) [].

(** The state a fresh run starts from: the caller's input keys, every other
    key unset. *)
Definition initial_state (messages : list Message)
    (initial_search_query_count max_research_loops : option Z)
    (reasoning_model : option string) : State :=
  {| messages := messages; search_query := []; web_research_result := [];
     sources_gathered := [];
     initial_search_query_count := initial_search_query_count;
     max_research_loops := max_research_loops;
     research_loop_count := None; reasoning_model := reasoning_model;
     is_sufficient := None; knowledge_gap := None; follow_up_queries := [];
     number_of_ran_queries := None |}.

End graph.

(* ================================================================== *)
(** * Reference definitions used to state the properties *)
(* ================================================================== *)

Module reference.

(** ** URL resolver: the numbering by order of first appearance

    The [k]-th distinct URI, in the order in which the URIs are first seen,
    receives index [k]: the index is the number of URIs mapped so far. *)
Fixpoint dense_loop (id : Z) (urls : list string)
    (resolved_map : gmap string string) : gmap string string :=
  match urls with
  | [] => resolved_map
  | url :: rest =>
      dense_loop id rest
        (match resolved_map !! url with
         | None => <[url := utils.short_url_of id (size resolved_map)]> resolved_map
         | Some _ => resolved_map
         end)
  end.

Definition dense_resolve (urls : list string) (id : Z) : gmap string string :=
  dense_loop id urls ∅.

(** The position of the first occurrence of [url] in [urls]. *)
Fixpoint first_position (url : string) (urls : list string) : option nat :=
  match urls with
  | [] => None
  | u :: rest =>
      if decide (u = url) then Some O else S <$> first_position url rest
  end.

(** ** Citation inserter: the text laid out on the original coordinates

    A text with markers spliced in is a sequence of pieces, each either a
    stretch of the unmodified text or an inserted marker. *)
Inductive piece : Type :=
| Orig (s : string)
| Mark (s : string).

Definition piece_text (p : piece) : string :=
  match p with Orig s | Mark s => s end.

(** The string the pieces spell out. *)
Definition render (ps : list piece) : string :=
  foldr (λ p acc, piece_text p +:+ acc) "" ps.

(** The characters that come from the unmodified text. *)
Definition originals (ps : list piece) : string :=
  foldr (λ p acc, match p with Orig s => s +:+ acc | Mark _ => acc end) "" ps.

Definition markers (ps : list piece) : list string :=
  omap (λ p, match p with Mark s => Some s | Orig _ => None end) ps.

(** Every cut is made in the unmodified text: the citation with the largest
    end offset splits [text] at its own offset, and the citations before
    that offset are laid out in the part of [text] to its left. *)
Fixpoint layout (text : string) (descending : list utils.Citation)
    : list piece :=
  match descending with
  | [] => [Orig text]
  | c :: rest =>
      layout (slice_to text (utils.end_index c)) rest
        ++ [Mark (utils.marker_to_insert c);
            Orig (slice_from text (utils.end_index c))]
  end.

(** [s] is [t] with some characters removed. *)
Inductive subsequence : string → string → Prop :=
| subsequence_nil : subsequence "" ""
| subsequence_keep c s t :
    subsequence s t → subsequence (String c s) (String c t)
| subsequence_skip c s t :
    subsequence s t → subsequence s (String c t).

(** The marker of a citation, segment by segment. *)
Definition marker_of_segment (segment : utils.Source) : string :=
  " [" +:+ utils.label segment +:+ "]("
       +:+ str_of_opt (utils.short_url segment) +:+ ")".

End reference.

(* ================================================================== *)
(** * Facts about the Python primitives *)
(* ================================================================== *)

Module PyFacts.

Lemma str_app_nil_l s : "" +:+ s = s.
Proof. reflexivity. Qed.

Lemma str_app_cons c a b : String c a +:+ b = String c (a +:+ b).
Proof. reflexivity. Qed.

(** [+:+] does not unfold under [simpl]; these two equations compute it. *)
Ltac str_simpl := simpl; rewrite ?str_app_cons, ?str_app_nil_l; simpl.

Lemma str_app_nil_r s : s +:+ "" = s.
Proof. induction s as [|c s IH]; str_simpl; [done | by rewrite IH]. Qed.

Lemma str_app_assoc a b c : (a +:+ b) +:+ c = a +:+ (b +:+ c).
Proof. induction a as [|x a IH]; str_simpl; [done | by rewrite IH]. Qed.

Lemma str_length_app a b :
  String.length (a +:+ b) = (String.length a + String.length b)%nat.
Proof. induction a as [|x a IH]; str_simpl; [done | by rewrite IH]. Qed.

Lemma str_take_drop n s : str_take n s +:+ str_drop n s = s.
Proof.
  revert n; induction s as [|c s IH]; intros [|n]; str_simpl; try done.
  by rewrite IH.
Qed.

Lemma str_take_length n s :
  (n ≤ String.length s)%nat → String.length (str_take n s) = n.
Proof.
  revert n; induction s as [|c s IH]; intros [|n]; simpl; try done; try lia.
  intros Hn. rewrite IH; lia.
Qed.

Lemma str_take_app_le n a b :
  (n ≤ String.length a)%nat → str_take n (a +:+ b) = str_take n a.
Proof.
  revert n; induction a as [|c a IH]; intros [|n] Hn; simpl in Hn;
    str_simpl; try done; try lia.
  rewrite IH; [done | lia].
Qed.

Lemma str_drop_app_le n a b :
  (n ≤ String.length a)%nat → str_drop n (a +:+ b) = str_drop n a +:+ b.
Proof.
  revert n; induction a as [|c a IH]; intros [|n] Hn; simpl in Hn;
    str_simpl; try done; try lia.
  apply IH; lia.
Qed.

Lemma str_take_take m n s :
  (m ≤ n)%nat → str_take m (str_take n s) = str_take m s.
Proof.
  revert m n; induction s as [|c s IH]; intros [|m] [|n] Hmn; simpl;
    try done; try lia.
  rewrite IH; [done | lia].
Qed.

Lemma str_drop_take_drop m n s :
  (m ≤ n)%nat → str_drop m (str_take n s) +:+ str_drop n s = str_drop m s.
Proof.
  revert m n; induction s as [|c s IH]; intros [|m] [|n] Hmn; str_simpl;
    try done; try lia.
  - by rewrite str_take_drop.
  - apply IH; lia.
Qed.

Lemma slice_bound_in_range len i :
  0 ≤ i ≤ Z.of_nat len → slice_bound len i = Z.to_nat i.
Proof.
  intros Hi. unfold slice_bound.
  destruct (Z.ltb_spec i 0); [lia |]. f_equal; lia.
Qed.

(** A text is the concatenation of its two slices at any bound. *)
Lemma slice_to_from s i : slice_to s i +:+ slice_from s i = s.
Proof. apply str_take_drop. Qed.

Lemma slice_to_length s i :
  0 ≤ i ≤ Z.of_nat (String.length s) →
  Z.of_nat (String.length (slice_to s i)) = i.
Proof.
  intros Hi. unfold slice_to. rewrite slice_bound_in_range by done.
  rewrite str_take_length; lia.
Qed.

Lemma slice_to_app s t i :
  0 ≤ i ≤ Z.of_nat (String.length s) → slice_to (s +:+ t) i = slice_to s i.
Proof.
  intros Hi. unfold slice_to. rewrite str_length_app.
  rewrite !slice_bound_in_range by lia. apply str_take_app_le; lia.
Qed.

Lemma slice_from_app s t i :
  0 ≤ i ≤ Z.of_nat (String.length s) →
  slice_from (s +:+ t) i = slice_from s i +:+ t.
Proof.
  intros Hi. unfold slice_from. rewrite str_length_app.
  rewrite !slice_bound_in_range by lia. apply str_drop_app_le; lia.
Qed.

(** Cutting the left slice again, further left, is cutting the text there. *)
Lemma slice_to_slice_to s i j :
  0 ≤ j ≤ i → i ≤ Z.of_nat (String.length s) →
  slice_to (slice_to s i) j = slice_to s j.
Proof.
  intros Hj Hi. unfold slice_to at 1 3.
  assert (Z.of_nat (String.length (slice_to s i)) = i) as Hlen
    by (apply slice_to_length; lia).
  rewrite !slice_bound_in_range by lia.
  unfold slice_to. rewrite slice_bound_in_range by lia.
  apply str_take_take; lia.
Qed.

Lemma slice_from_slice_to s i j :
  0 ≤ j ≤ i → i ≤ Z.of_nat (String.length s) →
  slice_from (slice_to s i) j +:+ slice_from s i = slice_from s j.
Proof.
  intros Hj Hi. unfold slice_from.
  assert (Z.of_nat (String.length (slice_to s i)) = i) as Hlen
    by (apply slice_to_length; lia).
  rewrite !slice_bound_in_range by lia.
  unfold slice_to. rewrite slice_bound_in_range by lia.
  apply str_drop_take_drop; lia.
Qed.

End PyFacts.

(* ================================================================== *)
(** * The citation inserter *)
(* ================================================================== *)

Module InserterFacts.

Import utils reference PyFacts.

(** Every citation ends at or before all the citations in front of it. *)
Fixpoint descending_ends (l : list Citation) : Prop :=
  match l with
  | [] => True
  | c :: l' => Forall (λ d, end_index d ≤ end_index c) l' ∧ descending_ends l'
  end.

Definition within (text : string) (c : Citation) : Prop :=
  0 ≤ end_index c ≤ Z.of_nat (String.length text).

(** ** The sort *)

Lemma insert_desc_perm c l : insert_desc c l ≡ₚ c :: l.
Proof.
  induction l as [|d l IH]; simpl; [done |].
  destruct (key_ltb c d); [| done].
  rewrite IH. apply Permutation_swap.
Qed.

Lemma sorted_desc_perm l : sorted_desc l ≡ₚ l.
Proof.
  induction l as [|c l IH]; simpl; [done |].
  by rewrite insert_desc_perm, IH.
Qed.

Lemma key_ltb_true_end a b : key_ltb a b = true → end_index a ≤ end_index b.
Proof. unfold key_ltb. intros H. lia. Qed.

Lemma key_ltb_false_end a b : key_ltb a b = false → end_index b ≤ end_index a.
Proof. unfold key_ltb. intros H. lia. Qed.

Lemma insert_desc_descending c l :
  descending_ends l → descending_ends (insert_desc c l).
Proof.
  induction l as [|d l IH]; simpl; [by auto |].
  intros [Hd Hl]. destruct (key_ltb c d) eqn:Hcd; simpl.
  - split; [| by apply IH].
    rewrite insert_desc_perm. constructor; [| done].
    by apply key_ltb_true_end.
  - apply key_ltb_false_end in Hcd. repeat split; try done.
    constructor; [done |].
    eapply Forall_impl; [exact Hd |]. simpl. intros; lia.
Qed.

Lemma sorted_desc_descending l : descending_ends (sorted_desc l).
Proof.
  induction l as [|c l IH]; simpl; [done |]. by apply insert_desc_descending.
Qed.

(** ** One insertion *)

Lemma insert_marker_length text c :
  String.length (insert_marker text c)
  = (String.length text + String.length (marker_to_insert c))%nat.
Proof.
  unfold insert_marker.
  rewrite <- (slice_to_from text (end_index c)) at 3.
  rewrite !str_length_app. lia.
Qed.

(** An insertion inside a prefix of the text leaves what follows alone. *)
Lemma insert_marker_app text tail c :
  within text c →
  insert_marker (text +:+ tail) c = insert_marker text c +:+ tail.
Proof.
  intros Hc. unfold insert_marker.
  rewrite slice_to_app, slice_from_app by done.
  by rewrite !str_app_assoc.
Qed.

Lemma foldl_insert_marker_app l text tail :
  Forall (within text) l →
  foldl insert_marker (text +:+ tail) l = foldl insert_marker text l +:+ tail.
Proof.
  revert text. induction l as [|c l IH]; intros text Hl; simpl; [done |].
  apply Forall_cons in Hl as [Hc Hl].
  rewrite insert_marker_app by done. apply IH.
  eapply Forall_impl; [exact Hl |]. unfold within. intros d Hd.
  rewrite insert_marker_length. lia.
Qed.

(** ** The loop computes the layout on the original coordinates *)

Lemma foldl_insert_marker_layout l text :
  descending_ends l → Forall (within text) l →
  foldl insert_marker text l = render (layout text l).
Proof.
  revert text. induction l as [|c l IH]; intros text Hdesc Hin; simpl.
  - unfold render. simpl. by rewrite str_app_nil_r.
  - destruct Hdesc as [Hc Hdesc]. apply Forall_cons in Hin as [Hcin Hin].
    assert (Forall (within (slice_to text (end_index c))) l) as Hleft.
    { apply Forall_forall. intros d Hd. unfold within.
      rewrite slice_to_length by done.
      rewrite Forall_forall in Hc, Hin.
      specialize (Hc d Hd). specialize (Hin d Hd). unfold within in Hin. lia. }
    unfold insert_marker at 2.
    rewrite foldl_insert_marker_app by done.
    rewrite IH by done.
    unfold render. rewrite foldr_app. simpl.
    rewrite str_app_nil_r.
    generalize (layout (slice_to text (end_index c)) l) as ps.
    generalize (marker_to_insert c +:+ slice_from text (end_index c)) as tail.
    intros tail ps. induction ps as [|p ps IHps]; simpl; [done |].
    by rewrite str_app_assoc, IHps.
Qed.

Lemma originals_app ps qs : originals (ps ++ qs) = originals ps +:+ originals qs.
Proof.
  induction ps as [|[s|s] ps IH]; simpl; [done | |done].
  unfold originals in *. simpl. by rewrite IH, str_app_assoc.
Qed.

Lemma originals_layout l text : originals (layout text l) = text.
Proof.
  revert text. induction l as [|c l IH]; intros text; simpl.
  - unfold originals. simpl. apply str_app_nil_r.
  - rewrite originals_app, IH. unfold originals. simpl.
    rewrite str_app_nil_r. apply slice_to_from.
Qed.

Lemma markers_layout l text :
  markers (layout text l) = reverse (map marker_to_insert l).
Proof.
  revert text. induction l as [|c l IH]; intros text; simpl; [done |].
  unfold markers in *. rewrite omap_app, IH. simpl.
  by rewrite reverse_cons.
Qed.

(** Each marker sits between the pieces that make up the text to the left of
    its citation's end offset and those that make up the text to its right. *)
Lemma layout_split l text c :
  descending_ends l → Forall (within text) l → c ∈ l →
  ∃ before after,
    layout text l = before ++ Mark (marker_to_insert c) :: after
    ∧ originals before = slice_to text (end_index c)
    ∧ originals after = slice_from text (end_index c).
Proof.
  revert text. induction l as [|d l IH]; intros text Hdesc Hin Hc.
  { by apply elem_of_nil in Hc. }
  destruct Hdesc as [Hd Hdesc]. apply Forall_cons in Hin as [Hdin Hin].
  apply elem_of_cons in Hc as [-> | Hc]; simpl.
  - exists (layout (slice_to text (end_index d)) l),
           [Orig (slice_from text (end_index d))].
    split; [done |]. split; [apply originals_layout |].
    unfold originals. simpl. apply str_app_nil_r.
  - rewrite Forall_forall in Hd, Hin.
    pose proof (Hd c Hc) as Hcd. pose proof (Hin c Hc) as Hcin.
    unfold within in Hcin, Hdin.
    destruct (IH (slice_to text (end_index d))) as (before & after & Hl & Hb & Ha);
      [done | | done |].
    { apply Forall_forall. intros e He. unfold within.
      rewrite slice_to_length by done.
      specialize (Hd e He). specialize (Hin e He). unfold within in Hin. lia. }
    exists before,
      (after ++ [Mark (marker_to_insert d); Orig (slice_from text (end_index d))]).
    split; [by rewrite Hl, <- app_assoc |].
    split.
    + rewrite Hb. apply slice_to_slice_to; lia.
    + rewrite originals_app, Ha. unfold originals at 1. simpl.
      rewrite str_app_nil_r. apply slice_from_slice_to; lia.
Qed.

(** ** The original characters keep their order *)

Lemma subsequence_refl s : subsequence s s.
Proof. induction s; by constructor. Qed.

Lemma subsequence_app_l m s t : subsequence s t → subsequence s (m +:+ t).
Proof. intros H. induction m; str_simpl; [done | by constructor]. Qed.

Lemma subsequence_app s s' t t' :
  subsequence s t → subsequence s' t' → subsequence (s +:+ s') (t +:+ t').
Proof. induction 1; intros H'; str_simpl; [done | |]; constructor; auto. Qed.

Lemma subsequence_originals_render ps : subsequence (originals ps) (render ps).
Proof.
  induction ps as [|[s|s] ps IH]; unfold originals, render in *; simpl.
  - constructor.
  - apply subsequence_app; [apply subsequence_refl | done].
  - by apply subsequence_app_l.
Qed.

(** ** The marker *)

Lemma marker_to_insert_concat c :
  marker_to_insert c
  = foldr (λ segment rest, marker_of_segment segment +:+ rest) "" (segments c).
Proof.
  unfold marker_to_insert.
  assert (∀ l acc,
    foldl (λ marker segment,
             marker +:+ " [" +:+ label segment +:+ "]("
                    +:+ str_of_opt (short_url segment) +:+ ")") acc l
    = acc +:+ foldr (λ segment rest, marker_of_segment segment +:+ rest) "" l)
    as Hgen.
  { induction l as [|s l IH]; intros acc; simpl.
    - by rewrite str_app_nil_r.
    - rewrite IH. unfold marker_of_segment. by rewrite !str_app_assoc. }
  by rewrite Hgen.
Qed.

(** ** Offset safety of [insert_citation_markers] *)

(** C7 — Citation Inserter offset-safety.  For a text of length [L] and any
    list of citations whose end offsets are positions of the text
    ([0 ≤ end_index ≤ L]; the citations need not even be non-adjacent),
    [insert_citation_markers] — a total function: slicing never raises —
    returns the text laid out on its original coordinates:
    - the output is the rendering of pieces that are stretches of the
      unmodified text and markers;
    - the stretches of original text, read in order, are exactly [text], so
      the characters of [text] occur in the output in their original order;
    - the inserted pieces are exactly the markers of the citations;
    - the marker of each citation is the concatenation, over its sources, of
      [ [label](short_url)], and it stands between the pieces that make up
      [text[:end_index]] and those that make up [text[end_index:]]. *)
Theorem insert_citation_markers_offset_safe
    (text : string) (citations_list : list Citation) :
  Forall (within text) citations_list →
  let output := insert_citation_markers text citations_list in
  let ps := layout text (sorted_desc citations_list) in
  output = render ps
  ∧ originals ps = text
  ∧ subsequence text output
  ∧ markers ps ≡ₚ map marker_to_insert citations_list
  ∧ ∀ c, c ∈ citations_list →
      marker_to_insert c
      = foldr (λ segment rest, marker_of_segment segment +:+ rest) ""
          (segments c)
      ∧ ∃ before after,
          ps = before ++ Mark (marker_to_insert c) :: after
          ∧ originals before = slice_to text (end_index c)
          ∧ originals after = slice_from text (end_index c).
Proof.
  intros Hin output ps.
  assert (Forall (within text) (sorted_desc citations_list)) as Hsorted_in.
  { by rewrite sorted_desc_perm. }
  pose proof (sorted_desc_descending citations_list) as Hdesc.
  assert (output = render ps) as Hout.
  { subst output ps. unfold insert_citation_markers.
    by apply foldl_insert_marker_layout. }
  assert (originals ps = text) as Horig by apply originals_layout.
  split; [done |]. split; [done |]. split.
  { rewrite Hout. rewrite <- Horig at 1. apply subsequence_originals_render. }
  split.
  { subst ps. rewrite markers_layout, reverse_Permutation.
    by rewrite sorted_desc_perm. }
  intros c Hc. split; [apply marker_to_insert_concat |].
  subst ps. apply layout_split; [done | done |].
  by rewrite sorted_desc_perm.
Qed.

(** The text ["The sky is blue. Grass is green."] with one citation ending
    at offset 16 and one at offset 32. *)
Lemma insert_citation_markers_offset_safe_witness :
  let text := "The sky is blue. Grass is green." in
  let src l u := {| label := l; short_url := Some u; value := "https://x/" |} in
  let cs := [ {| start_index := 0; end_index := 16;
                 segments := [src "nasa" "https://s/0-0"] |};
              {| start_index := 17; end_index := 32;
                 segments := [src "kew" "https://s/0-1";
                              src "nasa" "https://s/0-0"] |} ] in
  Forall (within text) cs
  ∧ insert_citation_markers text cs
    = "The sky is blue. [nasa](https://s/0-0) Grass is green. [kew](https://s/0-1) [nasa](https://s/0-0)"
  ∧ subsequence text (insert_citation_markers text cs).
Proof.
  intros text src cs.
  assert (Forall (within text) cs) as Hin.
  { repeat constructor; simpl; lia. }
  split; [exact Hin |]. split; [reflexivity |].
  exact (proj1 (proj2 (proj2
    (insert_citation_markers_offset_safe text cs Hin)))).
Defined.

End InserterFacts.

(* ================================================================== *)
(** * The URL resolver *)
(* ================================================================== *)

Module ResolverFacts.

Import utils reference.

(** The URIs of a list of URL-bearing records, in order. *)
Definition uris (urls_to_resolve : list genai.GroundingChunk) : list string :=
  omap (λ site, genai.uri <$> genai.web site) urls_to_resolve.

Definition url_bearing (site : genai.GroundingChunk) : Prop :=
  is_Some (genai.web site).

Lemma traverse_site_uri urls_to_resolve :
  Forall url_bearing urls_to_resolve →
  traverse site_uri urls_to_resolve = Ok (uris urls_to_resolve).
Proof.
  induction 1 as [|site l [w Hw] _ IH]; simpl; [done |].
  unfold site_uri at 1. rewrite Hw. simpl. by rewrite IH.
Qed.

Lemma uris_app l1 l2 : uris (l1 ++ l2) = uris l1 ++ uris l2.
Proof. apply omap_app. Qed.

Lemma enumerate_from_app {A} start (l1 l2 : list A) :
  enumerate_from start (l1 ++ l2)
  = enumerate_from start l1 ++ enumerate_from (start + length l1) l2.
Proof.
  revert start. induction l1 as [|x l1 IH]; intros start; simpl.
  - by rewrite Nat.add_0_r.
  - rewrite IH. do 3 f_equal. lia.
Qed.

Lemma resolve_loop_app id l1 l2 m :
  resolve_loop id (l1 ++ l2) m = resolve_loop id l2 (resolve_loop id l1 m).
Proof.
  revert m. induction l1 as [|[idx url] l1 IH]; intros m; simpl; [done |].
  apply IH.
Qed.

(** A URI that is already mapped keeps its short URL: first occurrence wins. *)
Lemma resolve_loop_keeps id l m url short :
  m !! url = Some short → resolve_loop id l m !! url = Some short.
Proof.
  revert m. induction l as [|[idx u] l IH]; intros m Hm; simpl; [done |].
  apply IH. destruct (m !! u) eqn:Hu; [done |].
  rewrite lookup_insert_ne; [done |]. intros ->. congruence.
Qed.

(** A fresh URI receives the position of its first occurrence. *)
Lemma resolve_loop_first id start urls m url k :
  m !! url = None → first_position url urls = Some k →
  resolve_loop id (enumerate_from start urls) m !! url
  = Some (short_url_of id (start + k)).
Proof.
  revert start m k. induction urls as [|u urls IH]; intros start m k Hm Hk;
    simpl in *; [done |].
  destruct (decide (u = url)) as [-> | Hne].
  - injection Hk as <-. rewrite Hm. apply resolve_loop_keeps.
    rewrite lookup_insert_eq. do 2 f_equal. lia.
  - destruct (first_position url urls) as [k' |] eqn:Hk'; [| done].
    injection Hk as <-.
    replace (start + S k')%nat with (S start + k')%nat by lia.
    apply IH; [| done].
    destruct (m !! u); [done |]. by rewrite lookup_insert_ne.
Qed.

Lemma resolve_loop_dom id start urls m :
  dom (resolve_loop id (enumerate_from start urls) m)
  = dom m ∪ list_to_set urls.
Proof.
  revert start m. induction urls as [|u urls IH]; intros start m; simpl.
  - set_solver.
  - rewrite IH. destruct (m !! u) eqn:Hu.
    + apply elem_of_dom_2 in Hu. set_solver.
    + rewrite dom_insert_L. set_solver.
Qed.

Lemma first_position_is_Some url urls :
  url ∈ urls → is_Some (first_position url urls).
Proof.
  induction urls as [|u urls IH]; intros Hin; simpl.
  - by apply elem_of_nil in Hin.
  - destruct (decide (u = url)); [by eexists |].
    apply elem_of_cons in Hin as [-> | Hin]; [done |].
    destruct (IH Hin) as [k ->]. by eexists.
Qed.

Lemma size_list_to_set_remove_dups (l : list string) :
  size (list_to_set l : gset string) = length (remove_dups l).
Proof.
  rewrite <- (size_list_to_set (C := gset string) (remove_dups l))
    by apply NoDup_remove_dups.
  f_equal. apply set_eq. intros x.
  by rewrite !elem_of_list_to_set, elem_of_remove_dups.
Qed.

(** C4 (as amended) — URL Resolver contract.  For every list of URL-bearing
    records (duplicates allowed) and every task id, [resolve_urls] returns a
    map whose keys are exactly the distinct URIs of the input, one entry
    each; an entry is never remapped by what comes later in the list (first
    occurrence wins); and each URI maps to
    ['https://vertexaisearch.cloud.google.com/id/' + id + '-' + k] where [k]
    is the zero-based position, in the input list, of the first occurrence
    of that URI. *)
Theorem resolve_urls_contract
    (urls_to_resolve : list genai.GroundingChunk) (id : Z) :
  Forall url_bearing urls_to_resolve →
  ∃ resolved_map,
    resolve_urls urls_to_resolve id = Ok resolved_map
    ∧ dom resolved_map = list_to_set (uris urls_to_resolve)
    ∧ size resolved_map = length (remove_dups (uris urls_to_resolve))
    ∧ (∀ url k,
         first_position url (uris urls_to_resolve) = Some k →
         resolved_map !! url
         = Some ("https://vertexaisearch.cloud.google.com/id/"
                   +:+ str_of_int id +:+ "-" +:+ str_of_int (Z.of_nat k)))
    ∧ (∀ more resolved_more url,
         resolve_urls (urls_to_resolve ++ more) id = Ok resolved_more →
         url ∈ uris urls_to_resolve →
         resolved_more !! url = resolved_map !! url).
Proof.
  intros Hweb. unfold resolve_urls.
  rewrite traverse_site_uri by done. simpl.
  eexists. split; [reflexivity |]. unfold enumerate.
  assert (dom (resolve_loop id (enumerate_from 0 (uris urls_to_resolve)) ∅)
          = list_to_set (uris urls_to_resolve)) as Hdom.
  { rewrite resolve_loop_dom. set_solver. }
  split; [done |]. split.
  { rewrite <- size_dom, Hdom. apply size_list_to_set_remove_dups. }
  split.
  { intros url k Hk.
    by rewrite (resolve_loop_first id 0 _ ∅ url k). }
  intros more resolved_more url Hmore Hurl.
  destruct (first_position_is_Some _ _ Hurl) as [k Hk].
  rewrite (resolve_loop_first id 0 _ ∅ url k) by done.
  destruct (traverse site_uri (urls_to_resolve ++ more)) as [all |] eqn:Hall;
    [| done].
  simpl in Hmore. injection Hmore as <-.
  assert (∃ rest, all = uris urls_to_resolve ++ rest) as [rest ->].
  { clear -Hall Hweb. revert all Hall.
    induction Hweb as [|site l [w Hw] _ IH]; intros all Hall; simpl in *.
    - by eexists.
    - unfold site_uri at 1 in Hall. rewrite Hw in Hall. simpl in Hall.
      destruct (traverse site_uri (l ++ more)) as [ys |] eqn:Hys; [| done].
      injection Hall as <-. destruct (IH _ eq_refl) as [rest ->].
      exists rest. unfold uris at 1. simpl. by rewrite Hw. }
  unfold enumerate. rewrite enumerate_from_app, resolve_loop_app.
  apply resolve_loop_keeps.
  by rewrite (resolve_loop_first id 0 _ ∅ url k).
Qed.

Lemma resolve_urls_contract_witness :
  let site u := {| genai.web := Some {| genai.uri := u; genai.title := None |} |} in
  let sites := [site "https://a"; site "https://a"; site "https://b"] in
  Forall url_bearing sites
  ∧ ∃ resolved_map,
      resolve_urls sites 5 = Ok resolved_map
      ∧ resolved_map !! "https://b"
        = Some "https://vertexaisearch.cloud.google.com/id/5-2".
Proof.
  intros site sites.
  assert (Forall url_bearing sites) as Hweb.
  { repeat constructor; by eexists. }
  split; [exact Hweb |].
  destruct (resolve_urls_contract sites 5 Hweb)
    as (resolved_map & Hres & _ & _ & Hfirst & _).
  exists resolved_map. split; [exact Hres |].
  exact (Hfirst "https://b" 2%nat eq_refl).
Defined.

(** C4 (as stated) fails: the index is not the rank of the URI among the
    distinct URIs.  On the URIs [a, a, b] with task id 5 the code maps [b]
    to [..5-2], while [b] is the second distinct URI and the numbering by
    order of first appearance gives it [..5-1]. *)
Lemma resolve_urls_not_dense :
  let site u := {| genai.web := Some {| genai.uri := u; genai.title := None |} |} in
  let sites := [site "a"; site "a"; site "b"] in
  (∃ resolved_map,
     resolve_urls sites 5 = Ok resolved_map
     ∧ resolved_map !! "b"
       = Some "https://vertexaisearch.cloud.google.com/id/5-2")
  ∧ dense_resolve (uris sites) 5 !! "b"
    = Some "https://vertexaisearch.cloud.google.com/id/5-1"
  ∧ ¬ (∀ urls_to_resolve id resolved_map,
         resolve_urls urls_to_resolve id = Ok resolved_map →
         resolved_map = dense_resolve (uris urls_to_resolve) id).
Proof.
  intros site sites. split; [| split].
  - eexists. split; reflexivity.
  - reflexivity.
  - intros Hclaim. specialize (Hclaim sites 5 _ eq_refl).
    apply (f_equal (λ m : gmap string string, m !! "b")) in Hclaim.
    vm_compute in Hclaim. discriminate.
Qed.

End ResolverFacts.

(* ================================================================== *)
(** * The citation extractor *)
(* ================================================================== *)

Module ExtractorFacts.

Import utils PyFacts.

#[local] Arguments segment_of_index : simpl never.
#[local] Arguments citation_of_support : simpl never.

(** ** Splitting a title on ['.'] *)

Lemma prefix_dot c s : String.prefix "." (String c s) = Ascii.eqb c ".".
Proof.
  change (String.prefix "." (String c s))
    with (if ascii_dec "." c then String.prefix "" s else false).
  destruct (ascii_dec "." c) as [<- | Hne]; [by destruct s |].
  symmetry. apply Ascii.eqb_neq. congruence.
Qed.

Lemma contains_dot_cons c s :
  contains "." (String c s) = Ascii.eqb c "." || contains "." s.
Proof.
  change (contains "." (String c s))
    with (String.prefix "." (String c s) || contains "." s).
  by rewrite prefix_dot.
Qed.

Lemma split_nonempty sep s : split sep s ≠ [].
Proof.
  destruct s as [|c s]; simpl; [done |].
  destruct (Ascii.eqb c sep); [done |]. by destruct (split sep s).
Qed.

Lemma split_without_dot t : contains "." t = false → split "." t = [t].
Proof.
  induction t as [|c t IH]; [done |].
  rewrite contains_dot_cons. intros [Hc Ht]%orb_false_elim.
  simpl. rewrite Hc, IH; done.
Qed.

Lemma split_at_first_dot pre post :
  contains "." pre = false →
  split "." (pre +:+ String "." post) = pre :: split "." post.
Proof.
  induction pre as [|c pre IH]; [done |].
  rewrite contains_dot_cons. intros [Hc Hpre]%orb_false_elim.
  rewrite str_app_cons. simpl. rewrite Hc, IH; done.
Qed.

(** A title without ['.']: the slice [[:-1]] is empty and [[0]] raises. *)
Lemma label_of_title_without_dot t :
  contains "." t = false → label_of_title t = Raise IndexError.
Proof. intros Ht. unfold label_of_title. by rewrite split_without_dot. Qed.

(** A title with a ['.']: the label is what precedes the first ['.']. *)
Lemma label_of_title_first_segment pre post :
  contains "." pre = false →
  label_of_title (pre +:+ String "." post) = Ok pre.
Proof.
  intros Hpre. unfold label_of_title. rewrite split_at_first_dot by done.
  pose proof (split_nonempty "." post) as Hne.
  destruct (split "." post) as [|w ws]; [done |].
  by unfold drop_last, index.
Qed.

(** ** What the [try] block can raise *)

Lemma index_cases {A} (l : list A) i :
  (∃ a, index l i = Ok a) ∨ index l i = Raise IndexError.
Proof.
  unfold index. repeat case_match; eauto.
Qed.

Lemma label_of_title_cases t :
  (∃ lbl, label_of_title t = Ok lbl) ∨ label_of_title t = Raise IndexError.
Proof. apply index_cases. Qed.

Lemma segment_of_index_cases chunks resolved_urls_map ind :
  (∃ s, segment_of_index (Some chunks) resolved_urls_map ind = Ok s)
  ∨ segment_of_index (Some chunks) resolved_urls_map ind = Raise IndexError
  ∨ segment_of_index (Some chunks) resolved_urls_map ind = Raise AttributeError.
Proof.
  unfold segment_of_index.
  destruct (index_cases chunks ind) as [[chunk ->] | ->]; simpl; [| by auto].
  destruct (genai.web chunk) as [w |]; simpl; [| by auto].
  destruct (genai.title w) as [t |]; simpl; [| by auto].
  destruct (label_of_title_cases t) as [[lbl ->] | ->]; simpl; eauto.
Qed.

(** The loop over the chunk indices of one support never raises. *)
Lemma collect_segments_ok chunks resolved_urls_map inds acc :
  ∃ segs, collect_segments (Some chunks) resolved_urls_map inds acc = Ok segs.
Proof.
  revert acc. induction inds as [|ind inds IH]; intros acc; simpl; [by eexists |].
  destruct (segment_of_index_cases chunks resolved_urls_map ind)
    as [[s ->] | [-> | ->]]; apply IH.
Qed.

Lemma collect_segments_app chunks resolved_urls_map inds1 inds2 acc :
  collect_segments chunks resolved_urls_map (inds1 ++ inds2) acc
  = segs ← collect_segments chunks resolved_urls_map inds1 acc;
    collect_segments chunks resolved_urls_map inds2 segs.
Proof.
  revert acc. induction inds1 as [|ind inds1 IH]; intros acc; simpl; [done |].
  destruct (segment_of_index chunks resolved_urls_map ind) as [s | []];
    simpl; try done; apply IH.
Qed.

Lemma citations_of_supports_ok chunks resolved_urls_map supports :
  ∃ cs, citations_of_supports (Some chunks) resolved_urls_map supports = Ok cs.
Proof.
  induction supports as [|support supports [cs IH]]; simpl; [by eexists |].
  assert (∃ c, citation_of_support (Some chunks) resolved_urls_map support = Ok c)
    as [c ->].
  { unfold citation_of_support.
    destruct (genai.segment support) as [seg |]; [| by eexists].
    destruct (genai.end_index seg) as [e |]; [| by eexists].
    destruct (genai.grounding_chunk_indices support) as [[|ind inds] |];
      simpl; try by eexists.
    destruct (collect_segments_ok chunks resolved_urls_map (ind :: inds) [])
      as [segs Hsegs].
    simpl in Hsegs. rewrite Hsegs. simpl. by eexists. }
  simpl. rewrite IH. simpl. by eexists.
Qed.

(** The accumulator of the loop only grows at its end. *)
Lemma collect_segments_acc chunks resolved_urls_map inds acc :
  collect_segments chunks resolved_urls_map inds acc
  = segs ← collect_segments chunks resolved_urls_map inds [];
    Ok (acc ++ segs).
Proof.
  revert acc. induction inds as [|ind inds IH]; intros acc; simpl.
  { by rewrite app_nil_r. }
  destruct (segment_of_index chunks resolved_urls_map ind) as [s | []];
    simpl; try done; try apply IH.
  rewrite (IH (acc ++ [s])), (IH [s]).
  destruct (collect_segments chunks resolved_urls_map inds []) as [segs |];
    simpl; [| done].
  by rewrite <- app_assoc.
Qed.

(** The [if .. grounding_chunk_indices] guard only spares the loop an empty
    list. *)
Lemma citation_of_support_segments chunks resolved_urls_map support seg e inds :
  genai.segment support = Some seg →
  genai.end_index seg = Some e →
  genai.grounding_chunk_indices support = Some inds →
  citation_of_support chunks resolved_urls_map support
  = segs ← collect_segments chunks resolved_urls_map inds [];
    Ok (Some {| start_index := default 0 (genai.start_index seg);
                end_index := e; segments := segs |}).
Proof.
  intros Hseg He Hinds. unfold citation_of_support.
  rewrite Hseg, He, Hinds. by destruct inds.
Qed.

Lemma citations_of_supports_app chunks resolved_urls_map supports1 supports2 :
  citations_of_supports chunks resolved_urls_map (supports1 ++ supports2)
  = cs1 ← citations_of_supports chunks resolved_urls_map supports1;
    cs2 ← citations_of_supports chunks resolved_urls_map supports2;
    Ok (cs1 ++ cs2).
Proof.
  induction supports1 as [|support supports1 IH]; simpl.
  { by destruct (citations_of_supports _ _ supports2). }
  destruct (citation_of_support chunks resolved_urls_map support) as [c |];
    simpl; [| done].
  rewrite IH.
  destruct (citations_of_supports _ _ supports1) as [cs1 |]; simpl; [| done].
  destruct (citations_of_supports _ _ supports2) as [cs2 |]; simpl; [| done].
  by destruct c.
Qed.

(** C10 — the extractor on a title without ['.'].  Let a support reference,
    at index [ind], an existing chunk with title [t].
    - If [t] contains no ['.'], the label expression raises [IndexError],
      the exception is caught, and the chunk contributes no source to the
      citation's segments: the segments are those obtained without [ind]
      (no fallback to the URI or to the full title).
    - Whatever the titles, collecting the segments of a support never raises,
      and neither does [get_citations] on a response whose first candidate
      carries the lists of chunks and supports.
    - If [t] contains a ['.'], the source is emitted and its label is exactly
      the part of [t] before its first ['.'].
    - So for [get_citations] itself: on a response one of whose supports
      lists [ind] among its chunk indices, the citation of that support is
      returned at its place among the others, and its segments are the
      sources of the indices before [ind], then — only if [t] contains a
      ['.'] — the source of the chunk, labelled with the part of [t] before
      its first ['.'], then the sources of the indices after [ind]. *)
Theorem get_citations_title_without_dot
    (chunks : list genai.GroundingChunk) (resolved_urls_map : gmap string string)
    (ind : Z) (chunk : genai.GroundingChunk) (w : genai.Web) (t : string) :
  index chunks ind = Ok chunk →
  genai.web chunk = Some w →
  genai.title w = Some t →
  (contains "." t = false →
     segment_of_index (Some chunks) resolved_urls_map ind = Raise IndexError
     ∧ ∀ before after acc,
         collect_segments (Some chunks) resolved_urls_map
           (before ++ ind :: after) acc
         = collect_segments (Some chunks) resolved_urls_map
             (before ++ after) acc)
  ∧ (∀ inds acc, ∃ segs,
       collect_segments (Some chunks) resolved_urls_map inds acc = Ok segs)
  ∧ (∀ text supports others, ∃ citations,
       get_citations
         {| genai.text := text;
            genai.candidates :=
              Some ({| genai.grounding_metadata :=
                         Some {| genai.grounding_chunks := Some chunks;
                                 genai.grounding_supports := Some supports |} |}
                    :: others) |}
         resolved_urls_map = Ok citations)
  ∧ (∀ pre post,
       t = pre +:+ String "." post → contains "." pre = false →
       segment_of_index (Some chunks) resolved_urls_map ind
       = Ok {| label := pre;
               short_url := resolved_urls_map !! genai.uri w;
               value := genai.uri w |})
  ∧ (∀ text others supports1 support supports2 seg e before after,
       genai.segment support = Some seg →
       genai.end_index seg = Some e →
       genai.grounding_chunk_indices support = Some (before ++ ind :: after) →
       let response :=
         {| genai.text := text;
            genai.candidates :=
              Some ({| genai.grounding_metadata :=
                         Some {| genai.grounding_chunks := Some chunks;
                                 genai.grounding_supports :=
                                   Some (supports1 ++ support :: supports2) |} |}
                    :: others) |} in
       let citation segs :=
         {| start_index := default 0 (genai.start_index seg);
            end_index := e; segments := segs |} in
       ∃ cs1 cs2 segs1 segs2,
         citations_of_supports (Some chunks) resolved_urls_map supports1 = Ok cs1
         ∧ citations_of_supports (Some chunks) resolved_urls_map supports2
           = Ok cs2
         ∧ collect_segments (Some chunks) resolved_urls_map before [] = Ok segs1
         ∧ collect_segments (Some chunks) resolved_urls_map after [] = Ok segs2
         ∧ (contains "." t = false →
            get_citations response resolved_urls_map
            = Ok (cs1 ++ citation (segs1 ++ segs2) :: cs2))
         ∧ (∀ pre post,
              t = pre +:+ String "." post → contains "." pre = false →
              get_citations response resolved_urls_map
              = Ok (cs1
                    ++ citation
                         (segs1
                          ++ {| label := pre;
                                short_url := resolved_urls_map !! genai.uri w;
                                value := genai.uri w |} :: segs2)
                       :: cs2))).
Proof.
  intros Hchunk Hw Ht.
  assert (∀ lbl, label_of_title t = lbl →
          segment_of_index (Some chunks) resolved_urls_map ind
          = lbl ← lbl; Ok {| label := lbl;
                             short_url := resolved_urls_map !! genai.uri w;
                             value := genai.uri w |}) as Hseg.
  { intros lbl <-. unfold segment_of_index. rewrite Hchunk. simpl.
    rewrite Hw. simpl. by rewrite Ht. }
  split; [| split; [| split; [| split]]].
  - intros Hdot.
    assert (segment_of_index (Some chunks) resolved_urls_map ind
            = Raise IndexError) as Hraise.
    { by rewrite (Hseg _ (label_of_title_without_dot t Hdot)). }
    split; [done |]. intros before after acc.
    rewrite !collect_segments_app.
    destruct (collect_segments (Some chunks) resolved_urls_map before acc);
      simpl; [| done].
    by rewrite Hraise.
  - intros inds acc. apply collect_segments_ok.
  - intros text supports others. simpl. apply citations_of_supports_ok.
  - intros pre post -> Hpre.
    by rewrite (Hseg _ (label_of_title_first_segment pre post Hpre)).
  - intros text others supports1 support supports2 seg e before after
      Hsegment He Hinds response citation.
    destruct (citations_of_supports_ok chunks resolved_urls_map supports1)
      as [cs1 Hcs1].
    destruct (citations_of_supports_ok chunks resolved_urls_map supports2)
      as [cs2 Hcs2].
    destruct (collect_segments_ok chunks resolved_urls_map before [])
      as [segs1 Hsegs1].
    destruct (collect_segments_ok chunks resolved_urls_map after [])
      as [segs2 Hsegs2].
    exists cs1, cs2, segs1, segs2.
    split; [done |]. split; [done |]. split; [done |]. split; [done |].
    assert (∀ segs,
      collect_segments (Some chunks) resolved_urls_map (before ++ ind :: after) []
      = Ok segs →
      get_citations response resolved_urls_map
      = Ok (cs1 ++ citation segs :: cs2)) as Hresponse.
    { intros segs Hsegs. subst response. unfold get_citations. simpl.
      rewrite citations_of_supports_app, Hcs1. simpl.
      rewrite (citation_of_support_segments _ _ _ _ _ _ Hsegment He Hinds).
      rewrite Hsegs, Hcs2. done. }
    split.
    + intros Hdot. apply Hresponse.
      rewrite collect_segments_app, Hsegs1. simpl.
      rewrite (Hseg _ (label_of_title_without_dot t Hdot)). simpl.
      by rewrite collect_segments_acc, Hsegs2.
    + intros pre post -> Hpre. apply Hresponse.
      rewrite collect_segments_app, Hsegs1. simpl.
      rewrite (Hseg _ (label_of_title_first_segment pre post Hpre)). simpl.
      rewrite collect_segments_acc, Hsegs2. simpl.
      by rewrite <- app_assoc.
Qed.

(** A response with one support on one chunk.  *)
Definition one_chunk_response (t : string) : genai.Response :=
  {| genai.text := "Revenue grew.";
     genai.candidates :=
       Some [ {| genai.grounding_metadata :=
                   Some {| genai.grounding_chunks :=
                             Some [ {| genai.web :=
                                         Some {| genai.uri := "https://a";
                                                 genai.title := Some t |} |} ];
                           genai.grounding_supports :=
                             Some [ {| genai.segment :=
                                         Some {| genai.start_index := Some 0;
                                                 genai.end_index := Some 13 |};
                                       genai.grounding_chunk_indices :=
                                         Some [0] |} ] |} |} ] |}.

(** The title [Report] gives a citation without source, the title
    [Report.pdf] a source labelled [Report]. *)
Lemma get_citations_title_without_dot_witness :
  (contains "." "Report" = false
   ∧ get_citations (one_chunk_response "Report") ∅
     = Ok [ {| start_index := 0; end_index := 13; segments := [] |} ])
  ∧ ("Report.pdf" = "Report" +:+ String "." "pdf"
     ∧ get_citations (one_chunk_response "Report.pdf") ∅
       = Ok [ {| start_index := 0; end_index := 13;
                 segments := [ {| label := "Report"; short_url := None;
                                  value := "https://a" |} ] |} ]).
Proof.
  split.
  - split; [reflexivity |].
    pose proof (get_citations_title_without_dot
                  [ {| genai.web := Some {| genai.uri := "https://a";
                                            genai.title := Some "Report" |} |} ]
                  ∅ 0 _ _ "Report" eq_refl eq_refl eq_refl)
      as (_ & _ & _ & _ & Hresponse).
    destruct (Hresponse "Revenue grew." [] []
                {| genai.segment := Some {| genai.start_index := Some 0;
                                            genai.end_index := Some 13 |};
                   genai.grounding_chunk_indices := Some [0] |}
                [] _ 13 [] [] eq_refl eq_refl eq_refl)
      as (cs1 & cs2 & segs1 & segs2 & [= <-] & [= <-] & [= <-] & [= <-]
          & Hdrop & _).
    exact (Hdrop eq_refl).
  - split; [reflexivity |].
    pose proof (get_citations_title_without_dot
                  [ {| genai.web := Some {| genai.uri := "https://a";
                                            genai.title := Some "Report.pdf" |} |} ]
                  ∅ 0 _ _ "Report.pdf" eq_refl eq_refl eq_refl)
      as (_ & _ & _ & _ & Hresponse).
    destruct (Hresponse "Revenue grew." [] []
                {| genai.segment := Some {| genai.start_index := Some 0;
                                            genai.end_index := Some 13 |};
                   genai.grounding_chunk_indices := Some [0] |}
                [] _ 13 [] [] eq_refl eq_refl eq_refl)
      as (cs1 & cs2 & segs1 & segs2 & [= <-] & [= <-] & [= <-] & [= <-]
          & _ & Hemit).
    exact (Hemit "Report" "pdf" eq_refl eq_refl).
Defined.

(** C9 — on a title with several ['.']-separated segments the label is the
    first segment, not the title without its last segment: for the title
    ["Q1.Report.pdf"] the emitted label is ["Q1"]. *)
Theorem get_citations_label_of_dotted_title :
  let response :=
    {| genai.text := "Revenue grew.";
       genai.candidates :=
         Some [ {| genai.grounding_metadata :=
                     Some {| genai.grounding_chunks :=
                               Some [ {| genai.web :=
                                           Some {| genai.uri := "https://a";
                                                   genai.title := Some "Q1.Report.pdf" |} |} ];
                             genai.grounding_supports :=
                               Some [ {| genai.segment :=
                                           Some {| genai.start_index := Some 0;
                                                   genai.end_index := Some 13 |};
                                         genai.grounding_chunk_indices := Some [0] |} ] |} |} ] |} in
  label_of_title "Q1.Report.pdf" = Ok "Q1"
  ∧ label_of_title "Q1.Report.pdf" ≠ Ok "Q1.Report"
  ∧ get_citations response {[ "https://a" := short_url_of 0 0 ]}
    = Ok [ {| start_index := 0; end_index := 13;
              segments := [ {| label := "Q1";
                               short_url := Some (short_url_of 0 0);
                               value := "https://a" |} ] |} ].
Proof.
  intros response. split; [reflexivity |]. split; [| reflexivity].
  intros Heq. vm_compute in Heq. discriminate.
Qed.

End ExtractorFacts.

(* ================================================================== *)
(** * The configuration *)
(* ================================================================== *)

Module ConfigurationFacts.

Import configuration.

(** The lookup order of one field: an environment variable hides the value
    given at run time. *)
Lemma raw_value_environment_first environ configurable name s :
  environ !! upper name = Some s →
  raw_value environ configurable name = Some (VStr s).
Proof. intros Henv. unfold raw_value. by rewrite Henv. Qed.

Lemma raw_value_runtime_otherwise environ configurable name :
  environ !! upper name = None →
  raw_value environ configurable name = configurable !! name.
Proof. intros Henv. unfold raw_value. by rewrite Henv. Qed.

(** C5 — precedence of the configuration sources, at the input where a field
    is set both ways: with [QUERY_GENERATOR_MODEL=model-from-env] in the
    environment and [query_generator_model = "model-from-runtime"] in
    [config["configurable"]], the resulting configuration carries the
    environment's value.  With neither source set, every field takes its
    declared default (3 initial queries, 2 loops). *)
Theorem from_runnable_config_environment_wins (int_of_str : string → option Z) :
  let environ : gmap string string :=
    {[ "QUERY_GENERATOR_MODEL" := "model-from-env" ]} in
  let config :=
    Some {| configurable :=
              Some {[ "query_generator_model" := VStr "model-from-runtime" ]} |} in
  from_runnable_config int_of_str environ config
  = Ok {| query_generator_model := "model-from-env";
          reflection_model := "gemini-2.5-flash";
          answer_model := "gemini-2.5-pro";
          number_of_initial_queries := 3;
          max_research_loops := 2 |}
  ∧ from_runnable_config int_of_str ∅ None = Ok defaults.
Proof. split; reflexivity. Qed.

End ConfigurationFacts.

(* ================================================================== *)
(** * The research loop *)
(* ================================================================== *)

Module GraphFacts.

Import state graph.

#[local] Arguments utils.resolve_urls : simpl never.
#[local] Arguments utils.get_citations : simpl never.
#[local] Arguments utils.insert_citation_markers : simpl never.

(** ** What the nodes write *)

Lemma merge_generate_query st configurable result_query :
  let st' := merge st (generate_query st configurable result_query) in
  search_query st' = search_query st ++ result_query
  ∧ max_research_loops st' = max_research_loops st
  ∧ research_loop_count st' = research_loop_count st.
Proof. by destruct st. Qed.

Lemma merge_reflection st configurable result :
  let st' := merge st (reflection st configurable result) in
  is_sufficient st' = Some (tools_and_schemas.is_sufficient result)
  ∧ research_loop_count st' = Some (default 0 (research_loop_count st) + 1)
  ∧ number_of_ran_queries st' = Some (Z.of_nat (length (search_query st)))
  ∧ follow_up_queries st'
    = follow_up_queries st ++ tools_and_schemas.follow_up_queries result
  ∧ search_query st' = search_query st
  ∧ max_research_loops st' = max_research_loops st.
Proof. by destruct st. Qed.

(** A search task that completes writes its sources, its own query and its
    text, and nothing else. *)
Lemma web_research_update task configurable response update :
  web_research task configurable response = Ok update →
  ∃ sources modified_text,
    update = [W_sources_gathered sources;
              W_search_query [WebSearchState.search_query task];
              W_web_research_result [modified_text]].
Proof.
  unfold web_research. intros Hrun.
  destruct (genai.candidates response) as [candidates |]; [| done].
  simpl in Hrun. destruct (index candidates 0) as [candidate |]; [| done].
  simpl in Hrun.
  destruct (genai.grounding_metadata candidate) as [md |]; [| done].
  simpl in Hrun. destruct (genai.grounding_chunks md) as [chunks |]; [| done].
  destruct (utils.resolve_urls _ _) as [resolved_urls |]; [| done].
  simpl in Hrun.
  destruct (utils.get_citations _ _) as [citations |]; [| done].
  simpl in Hrun. injection Hrun as <-. by eexists _, _.
Qed.

Lemma merge_web_research st task configurable response update :
  web_research task configurable response = Ok update →
  let st' := merge st update in
  search_query st' = search_query st ++ [WebSearchState.search_query task]
  ∧ max_research_loops st' = max_research_loops st
  ∧ research_loop_count st' = research_loop_count st.
Proof.
  intros (sources & modified_text & ->)%web_research_update. by destruct st.
Qed.

(** A batch that completes appends one query per task to [search_query]. *)
Lemma run_batch_ok w configurable batch st st' :
  run_batch w configurable batch st = Ok st' →
  length (search_query st') = (length (search_query st) + length batch)%nat
  ∧ max_research_loops st' = max_research_loops st
  ∧ research_loop_count st' = research_loop_count st.
Proof.
  revert st. induction batch as [|task batch IH]; intros st Hrun; simpl in *.
  - injection Hrun as <-. repeat split. lia.
  - destruct (web_research _ _ _) as [update |] eqn:Htask; [| done].
    simpl in Hrun. apply IH in Hrun as (Hlen & Hmax & Hcount).
    destruct (merge_web_research st _ _ _ _ Htask) as (Hq & Hmax' & Hcount').
    rewrite Hlen, Hmax, Hcount, Hq, Hmax', Hcount', length_app. simpl.
    repeat split. lia.
Qed.

(** Every task completing, the batch does. *)
Definition tasks_complete (w : World)
    (configurable : configuration.Configuration) : Prop :=
  ∀ task,
    is_ok (web_research task configurable (web_searcher w task)) = true.

Lemma run_batch_completes w configurable batch st :
  tasks_complete w configurable →
  ∃ st', run_batch w configurable batch st = Ok st'.
Proof.
  intros Hok. revert st. induction batch as [|task batch IH]; intros st; simpl.
  - by eexists.
  - specialize (Hok (arg task)).
    destruct (web_research _ _ _) as [update |]; [| done]. simpl. apply IH.
Qed.

(** ** The routing after a reflection *)

(** The task built for the [idx]-th follow-up query. *)
Definition follow_up_task (ran : Z) (entry : nat * string) : Send :=
  {| node := "web_research";
     arg := {| WebSearchState.search_query := entry.2;
               WebSearchState.id := ran + Z.of_nat entry.1 |} |}.

Lemma traverse_ext {A B} (f g : A → result B) l :
  (∀ x, f x = g x) → traverse f l = traverse g l.
Proof. intros Hfg. induction l as [|x l IH]; simpl; [done |]. by rewrite Hfg, IH. Qed.

Lemma traverse_ok_map {A B} (g : A → B) l :
  traverse (λ x, Ok (g x)) l = Ok (map g l).
Proof. induction l as [|x l IH]; simpl; [done |]. by rewrite IH. Qed.

Lemma evaluate_research_defined st configurable sufficient count ran :
  is_sufficient st = Some sufficient →
  research_loop_count st = Some count →
  number_of_ran_queries st = Some ran →
  evaluate_research st configurable
  = Ok (if sufficient
           || (effective_max_research_loops st configurable <=? count)
        then Goto "finalize_answer"
        else Sends (map (follow_up_task ran)
                        (enumerate (follow_up_queries st)))).
Proof.
  intros Hs Hc Hr. unfold evaluate_research.
  rewrite (traverse_ext _ (λ entry, Ok (follow_up_task ran entry)))
    by (intros [idx q]; by rewrite Hr).
  rewrite traverse_ok_map, Hs, Hc. simpl.
  destruct sufficient; simpl; [done |].
  by destruct (_ <=? count).
Qed.


Lemma enumerate_from_length {A} start (l : list A) :
  length (enumerate_from start l) = length l.
Proof. revert start. induction l; intros; simpl; [done | by f_equal]. Qed.

(** ** Reading a trace *)

Lemma dispatched_app tr1 tr2 :
  dispatched (tr1 ++ tr2) = dispatched tr1 ++ dispatched tr2.
Proof. apply omap_app. Qed.

Lemma reflections_app tr1 tr2 :
  reflections (tr1 ++ tr2) = reflections tr1 ++ reflections tr2.
Proof. apply omap_app. Qed.

Lemma dispatched_batch batch : dispatched (map Dispatched batch) = batch.
Proof.
  induction batch as [|t b IH]; [done |].
  change (t :: dispatched (map Dispatched b) = t :: b). by rewrite IH.
Qed.

Lemma reflections_batch batch : reflections (map Dispatched batch) = [].
Proof. induction batch as [|t b IH]; [done | exact IH]. Qed.

(** ** One turn of the loop *)

Lemma research_loop_O w configurable st batch tr :
  research_loop O w configurable st batch tr
  = {| final_status := OutOfFuel; final_state := st;
       trace := tr ++ map Dispatched batch |}.
Proof. reflexivity. Qed.

(** Nothing sent: the run ends. *)
Lemma research_loop_nil fuel w configurable st tr :
  research_loop (S fuel) w configurable st [] tr
  = {| final_status := Ended; final_state := st;
       trace := tr ++ map Dispatched [] |}.
Proof. reflexivity. Qed.

Lemma research_loop_S fuel w configurable st batch tr :
  batch ≠ [] →
  research_loop (S fuel) w configurable st batch tr
  = let tr1 := tr ++ map Dispatched batch in
    match run_batch w configurable batch st with
    | Raise e =>
        {| final_status := Crashed e; final_state := st; trace := tr1 |}
    | Ok st1 =>
        let st2 :=
          merge st1 (reflection st1 configurable
                       (reasoner w (length (reflections tr1)))) in
        let tr2 := tr1 ++ [Reflected st2] in
        match evaluate_research (ReflectionState.view st2) configurable with
        | Raise e =>
            {| final_status := Crashed e; final_state := st2; trace := tr2 |}
        | Ok (Goto _) =>
            {| final_status := Finalizing; final_state := st2; trace := tr2 |}
        | Ok (Sends batch') =>
            research_loop fuel w configurable st2 batch' tr2
        end
    end.
Proof. by destruct batch. Qed.

(** The routing function as the compiled graph calls it after a reflection:
    on the [ReflectionState] keys of the store, where no
    [max_research_loops] is to be found, so that the count is compared with
    the configured bound. *)
Lemma evaluate_research_after_reflection st configurable result :
  let st' := merge st (reflection st configurable result) in
  evaluate_research (ReflectionState.view st') configurable
  = Ok (if tools_and_schemas.is_sufficient result
           || (configuration.max_research_loops configurable
               <=? default 0 (research_loop_count st) + 1)
        then Goto "finalize_answer"
        else Sends (map (follow_up_task (Z.of_nat (length (search_query st))))
                        (enumerate (follow_up_queries st'))))
  .
Proof.
  intros st'.
  destruct (merge_reflection st configurable result)
    as (Hs & Hc & Hr & _ & _ & _).
  fold st' in Hs, Hc, Hr.
  by rewrite (evaluate_research_defined (ReflectionState.view st') configurable
                _ _ _ Hs Hc Hr).
Qed.

Lemma follow_up_batch_nonempty ran (queries : list string) :
  queries ≠ [] → map (follow_up_task ran) (enumerate queries) ≠ [].
Proof. by destruct queries. Qed.

Lemma initial_batch_nonempty st configurable result_query :
  result_query ≠ [] →
  continue_to_web_research (merge st (generate_query st configurable result_query))
  ≠ [].
Proof.
  intros Hne. destruct (merge_generate_query st configurable result_query)
    as (Hq & _).
  unfold continue_to_web_research. rewrite Hq.
  destruct (search_query st); [by destruct result_query | done].
Qed.


(** ** Example collaborators *)

(** A search response without grounding: no chunk, no support. *)
Definition plain_response (text : string) : genai.Response :=
  {| genai.text := text;
     genai.candidates :=
       Some [ {| genai.grounding_metadata :=
                   Some {| genai.grounding_chunks := Some [];
                           genai.grounding_supports := Some [] |} |} ] |}.

(** A world that generates [queries], finds plain text for every query, and
    whose every reflection answers [result]. *)
Definition constant_world (queries : list string)
    (result : tools_and_schemas.Reflection) : World :=
  {| query_writer := λ _, queries;
     web_searcher := λ task, plain_response (WebSearchState.search_query task);
     reasoner := λ _, result |}.

Definition never_sufficient : tools_and_schemas.Reflection :=
  {| tools_and_schemas.is_sufficient := false;
     tools_and_schemas.knowledge_gap := "more detail needed";
     tools_and_schemas.follow_up_queries := ["follow-up"] |}.

Definition sufficient_at_once : tools_and_schemas.Reflection :=
  {| tools_and_schemas.is_sufficient := true;
     tools_and_schemas.knowledge_gap := "";
     tools_and_schemas.follow_up_queries := [] |}.

Lemma constant_world_completes queries result configurable :
  tasks_complete (constant_world queries result) configurable.
Proof. intros task. reflexivity. Qed.



(** The default configuration with another [max_research_loops]. *)
Definition with_max_research_loops (m : Z) : configuration.Configuration :=
  {| configuration.query_generator_model :=
       configuration.query_generator_model configuration.defaults;
     configuration.reflection_model :=
       configuration.reflection_model configuration.defaults;
     configuration.answer_model :=
       configuration.answer_model configuration.defaults;
     configuration.number_of_initial_queries :=
       configuration.number_of_initial_queries configuration.defaults;
     configuration.max_research_loops := m |}.




(** ** Task identifiers *)

Definition task_id (task : Send) : Z := WebSearchState.id (arg task).

(** The identifiers of the tasks dispatched along a trace, in order. *)
Definition task_ids (tr : list event) : list Z := map task_id (dispatched tr).

Definition consecutive (first : Z) (n : nat) : list Z :=
  map (λ k, first + Z.of_nat k) (seq 0 n).

Lemma consecutive_NoDup first n : NoDup (consecutive first n).
Proof.
  apply NoDup_fmap_2; [| apply NoDup_seq]. intros k1 k2 Hk. lia.
Qed.

Lemma consecutive_bounds first n i :
  i ∈ consecutive first n → first ≤ i < first + Z.of_nat n.
Proof.
  intros (k & -> & Hk)%list_elem_of_fmap. apply elem_of_seq in Hk. lia.
Qed.

Lemma enumerate_from_ids {A} (f : nat * A → Z) (g : nat → Z) start (l : list A) :
  (∀ k x, f (k, x) = g k) →
  map f (enumerate_from start l) = map g (seq start (length l)).
Proof.
  intros Hfg. revert start. induction l as [|x l IH]; intros start; simpl;
    [done |].
  by rewrite Hfg, IH.
Qed.

(** The follow-up batch is numbered from [number_of_ran_queries] on. *)
Lemma follow_up_ids ran (queries : list string) :
  map task_id (map (follow_up_task ran) (enumerate queries))
  = consecutive ran (length queries).
Proof.
  rewrite map_map. unfold enumerate, consecutive.
  by apply enumerate_from_ids.
Qed.

(** The initial batch is numbered [0 .. N-1]. *)
Lemma initial_ids st :
  map task_id (continue_to_web_research st)
  = consecutive 0 (length (search_query st)).
Proof.
  unfold continue_to_web_research. rewrite map_map.
  unfold enumerate, consecutive. by apply enumerate_from_ids.
Qed.

Lemma task_ids_app tr1 tr2 : task_ids (tr1 ++ tr2) = task_ids tr1 ++ task_ids tr2.
Proof. unfold task_ids. by rewrite dispatched_app, map_app. Qed.

Lemma task_ids_batch batch : task_ids (map Dispatched batch) = map task_id batch.
Proof. unfold task_ids. by rewrite dispatched_batch. Qed.

(** The invariant of the loop: the identifiers used so far, those of the
    batch about to run included, are pairwise distinct and all below the
    length [search_query] will have once the batch has completed. *)
Definition ids_fresh (st : State) (batch : list Send) (tr : list event) : Prop :=
  NoDup (task_ids tr ++ map task_id batch)
  ∧ Forall (λ i, i < Z.of_nat (length (search_query st) + length batch))
           (task_ids tr ++ map task_id batch).

Lemma research_loop_ids fuel w configurable st batch tr :
  ids_fresh st batch tr →
  NoDup (task_ids (trace (research_loop fuel w configurable st batch tr))).
Proof.
  revert st batch tr. induction fuel as [|fuel IH]; intros st batch tr [Hnodup Hbelow].
  { rewrite research_loop_O. simpl. by rewrite task_ids_app, task_ids_batch. }
  destruct (decide (batch = [])) as [-> | Hne].
  { rewrite research_loop_nil. simpl in *. by rewrite app_nil_r in *. }
  rewrite research_loop_S by done. cbv zeta.
  assert (task_ids (tr ++ map Dispatched batch)
          = task_ids tr ++ map task_id batch) as Hids
    by (by rewrite task_ids_app, task_ids_batch).
  destruct (run_batch w configurable batch st) as [st1 |] eqn:Hbatch;
    [| simpl; by rewrite Hids].
  apply run_batch_ok in Hbatch as (Hlen & _ & _).
  set (tr1 := tr ++ map Dispatched batch) in *.
  set (result := reasoner w (length (reflections tr1))).
  set (st2 := merge st1 (reflection st1 configurable result)).
  assert (task_ids (tr1 ++ [Reflected st2]) = task_ids tr ++ map task_id batch)
    as Hids2.
  { rewrite task_ids_app, Hids. unfold task_ids at 2. simpl. apply app_nil_r. }
  pose proof (evaluate_research_after_reflection st1 configurable result)
    as Hroute.
  cbv zeta in Hroute. fold st2 in Hroute. rewrite Hroute.
  destruct (_ || _); [simpl; by rewrite Hids2 |].
  apply IH. unfold ids_fresh. rewrite Hids2, follow_up_ids.
  destruct (merge_reflection st1 configurable result)
    as (_ & _ & _ & _ & Hq & _).
  fold st2 in Hq. rewrite Hq, length_map.
  unfold enumerate. rewrite enumerate_from_length.
  split.
  - apply NoDup_app. split; [done |]. split; [| apply consecutive_NoDup].
    intros i Hold Hnew. apply consecutive_bounds in Hnew.
    rewrite Forall_forall in Hbelow. specialize (Hbelow i Hold). lia.
  - apply Forall_app. split.
    + eapply Forall_impl; [exact Hbelow |]. simpl. intros i Hi. lia.
    + apply Forall_forall. intros i Hi%consecutive_bounds. lia.
Qed.

Lemma research_loop_dispatched fuel w configurable st batch tr :
  ∃ later,
    dispatched (trace (research_loop fuel w configurable st batch tr))
    = dispatched tr ++ batch ++ later.
Proof.
  revert st batch tr. induction fuel as [|fuel IH]; intros st batch tr.
  { rewrite research_loop_O. simpl. exists [].
    by rewrite dispatched_app, dispatched_batch, app_nil_r. }
  destruct (decide (batch = [])) as [-> | Hne].
  { rewrite research_loop_nil. simpl. exists []. by rewrite !app_nil_r. }
  rewrite research_loop_S by done. cbv zeta.
  assert (∀ st2, dispatched ((tr ++ map Dispatched batch) ++ [Reflected st2])
                 = dispatched tr ++ batch) as Hsame.
  { intros st2. rewrite !dispatched_app, dispatched_batch. simpl.
    by rewrite app_nil_r. }
  destruct (run_batch w configurable batch st) as [st1 |];
    [| simpl; exists []; by rewrite dispatched_app, dispatched_batch, app_nil_r].
  set (st2 := merge st1 _).
  specialize (Hsame st2). set (tr2 := _ ++ [Reflected st2]) in *.
  destruct (evaluate_research _ configurable) as [[name | batch'] | e].
  - simpl. exists []. by rewrite Hsame, app_nil_r.
  - destruct (IH st2 batch' tr2) as [later Hlater].
    exists (batch' ++ later). rewrite Hlater, Hsame. by rewrite <- app_assoc.
  - simpl. exists []. by rewrite Hsame, app_nil_r.
Qed.

(** C3 — task-id uniqueness.  In every run — whatever the generated queries,
    the search results and the reflection outcomes, and however long it is
    observed — no two dispatched retrieval tasks carry the same [id].  The
    initial batch, the first tasks to be dispatched, is numbered [0 .. N-1]
    by enumeration of the [N] queries in [search_query]. *)
Theorem task_ids_unique
    (fuel : nat) (w : World) (configurable : configuration.Configuration)
    (st : State) :
  let initial :=
    merge st (generate_query st configurable
                (query_writer w (number_queries st configurable))) in
  let out := run fuel w configurable st in
  NoDup (map (λ task, WebSearchState.id (arg task)) (dispatched (trace out)))
  ∧ map (λ task, WebSearchState.id (arg task)) (continue_to_web_research initial)
    = map Z.of_nat (seq 0 (length (search_query initial)))
  ∧ ∃ later, dispatched (trace out) = continue_to_web_research initial ++ later.
Proof.
  intros initial out. split; [| split].
  - apply (research_loop_ids fuel w configurable initial
             (continue_to_web_research initial) []).
    unfold ids_fresh. change (task_ids []) with (@nil Z).
    rewrite app_nil_l, initial_ids. split.
    + apply consecutive_NoDup.
    + apply Forall_forall. intros i Hi%consecutive_bounds. lia.
  - pose proof (initial_ids initial) as Hids. unfold task_id, consecutive in Hids.
    rewrite Hids. by apply map_ext.
  - apply (research_loop_dispatched fuel w configurable initial
             (continue_to_web_research initial) []).
Qed.

(** ** Termination *)







(** ** The count of ran queries *)

(** For each reflection of a trace, the number of tasks dispatched before it. *)
Fixpoint issued_at_reflections (issued : nat) (tr : list event) : list nat :=
  match tr with
  | [] => []
  | Dispatched _ :: tr' => issued_at_reflections (S issued) tr'
  | Reflected _ :: tr' => issued :: issued_at_reflections issued tr'
  end.

(** The loop only ever extends the list of reflections. *)
Lemma research_loop_reflections fuel w configurable st batch tr :
  ∃ more,
    reflections (trace (research_loop fuel w configurable st batch tr))
    = reflections tr ++ more.
Proof.
  revert st batch tr. induction fuel as [|fuel IH]; intros st batch tr.
  { rewrite research_loop_O. simpl. exists [].
    by rewrite reflections_app, reflections_batch. }
  destruct (decide (batch = [])) as [-> | Hne].
  { rewrite research_loop_nil. simpl. exists []. by rewrite !app_nil_r. }
  rewrite research_loop_S by done. cbv zeta.
  destruct (run_batch w configurable batch st) as [st1 |];
    [| simpl; exists []; by rewrite reflections_app, reflections_batch].
  set (st2 := merge st1 _). set (tr2 := _ ++ [Reflected st2]).
  assert (reflections tr2 = reflections tr ++ [st2]) as Htr2.
  { subst tr2. rewrite !reflections_app, reflections_batch.
    by rewrite app_nil_r. }
  destruct (evaluate_research _ configurable) as [[name | batch'] | e].
  - simpl. exists [st2]. exact Htr2.
  - destruct (IH st2 batch' tr2) as [more Hmore].
    exists (st2 :: more). rewrite Hmore, Htr2. by rewrite <- app_assoc.
  - simpl. exists [st2]. exact Htr2.
Qed.

(** The first reflection of a fresh run with [N] generated queries computes
    [2 * N]: [search_query] holds the queries written by [generate_query]
    and, again, the query each completed task writes back. *)
Lemma first_reflection_counts_twice w configurable st fuel :
  search_query st = [] →
  tasks_complete w configurable →
  query_writer w (number_queries st configurable) ≠ [] →
  let N := length (query_writer w (number_queries st configurable)) in
  ∃ first rest,
    reflections (trace (run (S fuel) w configurable st)) = first :: rest
    ∧ number_of_ran_queries first = Some (Z.of_nat (2 * N)).
Proof.
  intros Hempty Hok Hqueries N. unfold run.
  pose proof (initial_batch_nonempty st configurable _ Hqueries) as Hne.
  set (initial := merge st _) in *.
  destruct (merge_generate_query st configurable
              (query_writer w (number_queries st configurable)))
    as (Hq & _ & _).
  fold initial in Hq. rewrite Hempty, app_nil_l in Hq.
  rewrite research_loop_S by done. cbv zeta.
  destruct (run_batch_completes w configurable
              (continue_to_web_research initial) initial Hok) as [st1 Hbatch].
  rewrite Hbatch. apply run_batch_ok in Hbatch as (Hlen & _ & _).
  set (tr1 := [] ++ map Dispatched (continue_to_web_research initial)).
  set (st2 := merge st1 _).
  assert (number_of_ran_queries st2 = Some (Z.of_nat (2 * N))) as Hran.
  { destruct (merge_reflection st1 configurable
                (reasoner w (length (reflections tr1))))
      as (_ & _ & Hran & _).
    fold st2 in Hran. rewrite Hran, Hlen, Hq.
    unfold continue_to_web_research, enumerate.
    rewrite length_map, enumerate_from_length, Hq. do 2 f_equal. lia. }
  assert (reflections tr1 = []) as Hnone by apply reflections_batch.
  destruct (evaluate_research _ configurable) as [[name | batch'] | e].
  - simpl. rewrite reflections_app, Hnone. by eexists _, _.
  - destruct fuel as [|fuel'].
    + rewrite research_loop_O. simpl.
      rewrite !reflections_app, Hnone, reflections_batch. by eexists _, _.
    + destruct (research_loop_reflections (S fuel') w configurable st2 batch'
                  (tr1 ++ [Reflected st2]))
        as [more Hmore].
      rewrite Hmore, reflections_app, Hnone. by eexists _, _.
  - simpl. rewrite reflections_app, Hnone. by eexists _, _.
Qed.

(** C6 — the ran-query count, on a run that generates the two queries
    [q1, q2] and whose reflection asks for one follow-up query each time,
    with [max_research_loops = 2].  Two tasks have been dispatched before
    the first reflection and three before the second, but the computed
    [number_of_ran_queries] are 4 and 5: the initial queries are counted
    twice. *)
Theorem number_of_ran_queries_counts_initial_twice :
  let w := constant_world ["q1"; "q2"] never_sufficient in
  let st := initial_state [HumanMessage "question"] None None None in
  let out := run 2 w configuration.defaults st in
  final_status out = Finalizing
  ∧ issued_at_reflections 0 (trace out) = [2%nat; 3%nat]
  ∧ map number_of_ran_queries (reflections (trace out)) = [Some 4; Some 5].
Proof. repeat split. Qed.

(** ** The final substitution *)

(** A search result with eleven sources, [https://site0.example] to
    [https://site10.example]; its text cites the second and the last. *)
Definition eleven_sources : genai.Response :=
  let site n :=
    {| genai.web :=
         Some {| genai.uri := "https://site" +:+ str_of_int n +:+ ".example";
                 genai.title := Some ("site" +:+ str_of_int n +:+ ".example") |} |} in
  {| genai.text := "Sales rose. Costs fell.";
     genai.candidates :=
       Some [ {| genai.grounding_metadata :=
                   Some {| genai.grounding_chunks :=
                             Some (map site [0; 1; 2; 3; 4; 5; 6; 7; 8; 9; 10]);
                           genai.grounding_supports :=
                             Some [ {| genai.segment :=
                                         Some {| genai.start_index := Some 0;
                                                 genai.end_index := Some 11 |};
                                       genai.grounding_chunk_indices := Some [1] |};
                                    {| genai.segment :=
                                         Some {| genai.start_index := Some 12;
                                                 genai.end_index := Some 23 |};
                                       genai.grounding_chunk_indices := Some [10] |} ] |} |} ] |}.

Definition source_1 : utils.Source :=
  {| utils.label := "site1";
     utils.short_url := Some "https://vertexaisearch.cloud.google.com/id/0-1";
     utils.value := "https://site1.example" |}.

Definition source_10 : utils.Source :=
  {| utils.label := "site10";
     utils.short_url := Some "https://vertexaisearch.cloud.google.com/id/0-10";
     utils.value := "https://site10.example" |}.

(** C8 — the final substitution, on the sources gathered by task 0 from
    [eleven_sources] and an answer that cites only the last of them.  The
    short URL [..id/0-10] of [source_10] occurs in the answer, yet the
    emitted answer carries [https://site1.example0] in its place and the
    emitted list holds [source_1] alone: the short URL [..id/0-1] is found
    as a prefix of [..id/0-10] and replaced first. *)
Theorem finalize_answer_prefix_collision :
  let task := {| WebSearchState.search_query := "sales and costs";
                 WebSearchState.id := 0 |} in
  let st :=
    merge (initial_state [HumanMessage "question"] None None None)
      (default [] (match web_research task configuration.defaults eleven_sources with
                   | Ok update => Some update
                   | Raise _ => None
                   end)) in
  let content :=
    "Costs fell [site10](https://vertexaisearch.cloud.google.com/id/0-10)." in
  sources_gathered st = [source_1; source_10]
  ∧ contains "https://vertexaisearch.cloud.google.com/id/0-10" content = true
  ∧ finalize_answer st configuration.defaults content
    = Ok [W_messages [AIMessage "Costs fell [site10](https://site1.example0)."];
          W_sources_gathered [source_1]].
Proof. repeat split. Qed.

End GraphFacts.

(* ================================================================== *)
(** * More on the citation inserter *)
(* ================================================================== *)

Module InserterMore.

Import utils reference PyFacts InserterFacts.







(** ** Citations without sources *)

Lemma insert_marker_without_segments text c :
  segments c = [] → insert_marker text c = text.
Proof.
  intros Hc. unfold insert_marker, marker_to_insert. rewrite Hc. simpl.
  rewrite str_app_nil_l. apply slice_to_from.
Qed.

(** Citations all of whose sources were dropped (or that never had any)
    leave the text as it is, wherever their offsets point. *)
Theorem insert_citation_markers_without_sources
    (text : string) (citations_list : list Citation) :
  Forall (λ c, segments c = []) citations_list →
  insert_citation_markers text citations_list = text.
Proof.
  intros Hnone. unfold insert_citation_markers.
  assert (Forall (λ c, segments c = []) (sorted_desc citations_list)) as Hsorted
    by (by rewrite sorted_desc_perm).
  revert Hsorted. generalize (sorted_desc citations_list) as l.
  induction l as [|c l IH]; intros Hl; simpl; [done |].
  apply Forall_cons in Hl as [Hc Hl].
  rewrite insert_marker_without_segments by done. by apply IH.
Qed.

Lemma insert_citation_markers_without_sources_witness :
  let cs := [ {| start_index := 0; end_index := 4; segments := [] |};
              {| start_index := 2; end_index := 99; segments := [] |} ] in
  Forall (λ c, segments c = []) cs
  ∧ insert_citation_markers "Sales rose." cs = "Sales rose.".
Proof.
  intros cs.
  assert (Forall (λ c, segments c = []) cs) as Hnone by (by repeat constructor).
  split; [exact Hnone |].
  exact (insert_citation_markers_without_sources "Sales rose." cs Hnone).
Defined.

(** ** Independence of the order of the citations *)

Definition key_lt (a b : Citation) : Prop :=
  end_index a < end_index b
  ∨ (end_index a = end_index b ∧ start_index a < start_index b).

Lemma key_ltb_true a b : key_ltb a b = true ↔ key_lt a b.
Proof.
  unfold key_ltb, key_lt.
  rewrite orb_true_iff, andb_true_iff, !Z.ltb_lt, Z.eqb_eq. done.
Qed.

Lemma key_ltb_false a b : key_ltb a b = false ↔ ¬ key_lt a b.
Proof. rewrite <- key_ltb_true. by destruct (key_ltb a b). Qed.

(** Two citations are told apart by the sort: they are the same citation or
    their keys differ. *)
Definition separated (a b : Citation) : Prop := a = b ∨ key_lt a b ∨ key_lt b a.

Lemma insert_desc_comm a b l :
  separated a b →
  insert_desc a (insert_desc b l) = insert_desc b (insert_desc a l).
Proof.
  intros Hab. induction l as [|d l IH]; simpl.
  - destruct (key_ltb a b) eqn:Hab'; destruct (key_ltb b a) eqn:Hba'; try done.
    + apply key_ltb_true in Hab', Hba'. unfold key_lt in *. lia.
    + apply key_ltb_false in Hab', Hba'.
      destruct Hab as [-> | [? | ?]]; done.
  - destruct (key_ltb b d) eqn:Hbd; destruct (key_ltb a d) eqn:Had; simpl;
      rewrite ?Hbd, ?Had.
    + by rewrite IH.
    + destruct (key_ltb b a) eqn:Hba; [done |].
      apply key_ltb_true in Hbd. apply key_ltb_false in Had, Hba.
      unfold key_lt in *. lia.
    + destruct (key_ltb a b) eqn:Hab'; [done |].
      apply key_ltb_true in Had. apply key_ltb_false in Hbd, Hab'.
      unfold key_lt in *. lia.
    + destruct (key_ltb a b) eqn:Hab'; destruct (key_ltb b a) eqn:Hba';
        simpl; rewrite ?Hbd, ?Had; try done.
      * apply key_ltb_true in Hab', Hba'. unfold key_lt in *. lia.
      * apply key_ltb_false in Hab', Hba'.
        destruct Hab as [-> | [? | ?]]; done.
Qed.

Lemma sorted_desc_perm_eq l1 l2 :
  l1 ≡ₚ l2 →
  (∀ a b, a ∈ l1 → b ∈ l1 → separated a b) →
  sorted_desc l1 = sorted_desc l2.
Proof.
  induction 1 as [| c l1 l2 Hp IH | c d l | l1 l2 l3 Hp1 IH1 Hp2 IH2];
    intros Hsep; simpl.
  - done.
  - rewrite IH; [done |]. intros a b Ha Hb. apply Hsep; by right.
  - apply insert_desc_comm. apply Hsep; set_solver.
  - rewrite IH1 by done. apply IH2.
    intros a b Ha Hb. apply Hsep; by rewrite Hp1.
Qed.

(** The output does not depend on the order in which the citations are
    listed, as long as no two different citations have the same
    [(end_index, start_index)]. *)
Theorem insert_citation_markers_order_independent
    (text : string) (citations_list reordered : list Citation) :
  citations_list ≡ₚ reordered →
  (∀ a b, a ∈ citations_list → b ∈ citations_list →
          a = b ∨ (end_index a, start_index a) ≠ (end_index b, start_index b)) →
  insert_citation_markers text citations_list
  = insert_citation_markers text reordered.
Proof.
  intros Hperm Hkeys. unfold insert_citation_markers.
  rewrite (sorted_desc_perm_eq citations_list reordered); [done | done |].
  intros a b Ha Hb. unfold separated, key_lt.
  destruct (Hkeys a b Ha Hb) as [-> | Hne]; [by left |].
  right.
  destruct (decide (end_index a = end_index b)) as [He | He]; [| lia].
  destruct (decide (start_index a = start_index b)) as [Hs | Hs]; [| lia].
  destruct Hne. by rewrite He, Hs.
Qed.

Lemma insert_citation_markers_order_independent_witness :
  let src l := {| label := l; short_url := Some "https://s/0-0"; value := "https://x/" |} in
  let c1 := {| start_index := 0; end_index := 5; segments := [src "a"] |} in
  let c2 := {| start_index := 6; end_index := 10; segments := [src "b"] |} in
  [c1; c2] ≡ₚ [c2; c1]
  ∧ insert_citation_markers "Sales rose." [c1; c2]
    = insert_citation_markers "Sales rose." [c2; c1].
Proof.
  intros src c1 c2.
  assert ([c1; c2] ≡ₚ [c2; c1]) as Hperm by apply Permutation_swap.
  split; [exact Hperm |].
  apply (insert_citation_markers_order_independent "Sales rose." [c1; c2] [c2; c1] Hperm).
  intros a b Ha%list_elem_of_In Hb%list_elem_of_In.
  destruct Ha as [<- | [<- | []]], Hb as [<- | [<- | []]];
    try (by left); right; intros Heq; cbv in Heq; discriminate Heq.
Defined.

End InserterMore.

(* ================================================================== *)
(** * More on the URL resolver *)
(* ================================================================== *)

Module ResolverMore.

Import utils reference PyFacts ResolverFacts.

(** ** Decimal numerals *)

Lemma to_int_not_nil z :
  Z.to_int z ≠ Decimal.Pos Decimal.Nil ∧ Z.to_int z ≠ Decimal.Neg Decimal.Nil.
Proof.
  destruct z as [|p|p]; simpl; split; try done;
    intros [= Hp]; by apply DecimalPos.Unsigned.to_uint_nonnil in Hp.
Qed.

(** Different integers print differently. *)
Lemma str_of_int_inj z1 z2 : str_of_int z1 = str_of_int z2 → z1 = z2.
Proof.
  unfold str_of_int. intros Heq. apply DecimalZ.to_int_inj.
  destruct (to_int_not_nil z1) as [H1 H1'], (to_int_not_nil z2) as [H2 H2'].
  pose proof (NilZero.isi _ H1 H1') as E1.
  pose proof (NilZero.isi _ H2 H2') as E2.
  rewrite Heq in E1. congruence.
Qed.

(** [c in s], for a character [c]. *)
Lemma contains_char_cons c x s :
  contains (String c "") (String x s)
  = Ascii.eqb x c || contains (String c "") s.
Proof.
  change (contains (String c "") (String x s))
    with ((if ascii_dec c x then String.prefix "" s else false)
          || contains (String c "") s).
  f_equal. destruct (ascii_dec c x) as [<- | Hne].
  - rewrite Ascii.eqb_refl. by destruct s.
  - symmetry. apply Ascii.eqb_neq. congruence.
Qed.

Lemma digits_without_dash d :
  contains "-" (NilEmpty.string_of_uint d) = false.
Proof.
  induction d; simpl NilEmpty.string_of_uint; [done | ..];
    by rewrite contains_char_cons, IHd.
Qed.

(** The numeral of a natural number carries no sign. *)
Lemma str_of_nat_without_dash (k : nat) :
  contains "-" (str_of_int (Z.of_nat k)) = false.
Proof.
  unfold str_of_int. destruct (Z.of_nat k) as [|p|p] eqn:Hk; [done | | lia].
  simpl. unfold NilZero.string_of_uint.
  destruct (Pos.to_uint p); [done | ..]; apply digits_without_dash.
Qed.

(** A string is cut in one way only at its last ['-']. *)
Lemma dash_split_unique a1 a2 d1 d2 :
  contains "-" d1 = false → contains "-" d2 = false →
  a1 +:+ String "-" d1 = a2 +:+ String "-" d2 → a1 = a2 ∧ d1 = d2.
Proof.
  intros Hd1 Hd2. revert a2.
  induction a1 as [|x a1 IH]; intros [|y a2]; rewrite ?str_app_cons, ?str_app_nil_l;
    intros Heq.
  - by injection Heq.
  - injection Heq as <- ->.
    assert (contains "-" (a2 +:+ String "-" d2) = true) as Hin.
    { clear. induction a2 as [|z a2 IH]; rewrite ?str_app_cons, ?str_app_nil_l,
        contains_char_cons; [done |].
      by rewrite IH, orb_true_r. }
    congruence.
  - injection Heq as -> <-.
    assert (contains "-" (a1 +:+ String "-" d1) = true) as Hin.
    { clear. induction a1 as [|z a1 IH]; rewrite ?str_app_cons, ?str_app_nil_l,
        contains_char_cons; [done |].
      by rewrite IH, orb_true_r. }
    congruence.
  - injection Heq as -> Heq. destruct (IH _ Heq) as [-> ->]. done.
Qed.

(** A short URL determines the task and the index it was made from. *)
Lemma short_url_of_inj id1 k1 id2 k2 :
  short_url_of id1 k1 = short_url_of id2 k2 → id1 = id2 ∧ k1 = k2.
Proof.
  unfold short_url_of. intros Heq. apply String.app_inj in Heq.
  apply dash_split_unique in Heq as [Hid Hk];
    [| apply str_of_nat_without_dash ..].
  apply str_of_int_inj in Hid, Hk. split; [done | lia].
Qed.

(** ** The entries of a resolved map *)

Lemma first_position_lookup url urls k :
  first_position url urls = Some k → urls !! k = Some url.
Proof.
  revert k. induction urls as [|u urls IH]; intros k; simpl; [done |].
  destruct (decide (u = url)) as [-> | Hne]; [by intros [= <-] |].
  destruct (first_position url urls) as [k' |]; [| done].
  intros [= <-]. by apply IH.
Qed.

Lemma resolve_urls_unfold urls_to_resolve id resolved_map :
  resolve_urls urls_to_resolve id = Ok resolved_map →
  ∃ urls,
    traverse site_uri urls_to_resolve = Ok urls
    ∧ resolved_map = resolve_loop id (enumerate urls) ∅.
Proof.
  unfold resolve_urls.
  destruct (traverse site_uri urls_to_resolve) as [urls |]; [| done].
  simpl. intros [= <-]. by eexists.
Qed.

(** Every entry maps a URI of the input to the short URL made from the
    position of its first occurrence. *)
Lemma resolve_loop_entry id urls url short :
  resolve_loop id (enumerate urls) ∅ !! url = Some short →
  ∃ k, first_position url urls = Some k ∧ short = short_url_of id k.
Proof.
  intros Hshort.
  assert (url ∈ urls) as Hin.
  { apply elem_of_dom_2 in Hshort. unfold enumerate in Hshort.
    rewrite resolve_loop_dom in Hshort. set_solver. }
  destruct (first_position_is_Some _ _ Hin) as [k Hk].
  exists k. split; [done |].
  unfold enumerate in Hshort.
  rewrite (resolve_loop_first id 0 urls ∅ url k) in Hshort by done.
  by injection Hshort as <-.
Qed.

(** Short URLs are collision-free.  Within one call, two URIs that receive
    the same short URL are the same URI; and two calls with different task
    ids never produce the same short URL. *)
Theorem resolve_urls_collision_free
    (sites1 sites2 : list genai.GroundingChunk) (id1 id2 : Z)
    (map1 map2 : gmap string string) :
  resolve_urls sites1 id1 = Ok map1 →
  resolve_urls sites2 id2 = Ok map2 →
  (∀ url url' short,
     map1 !! url = Some short → map1 !! url' = Some short → url = url')
  ∧ (id1 ≠ id2 →
     ∀ url1 url2 short1 short2,
       map1 !! url1 = Some short1 → map2 !! url2 = Some short2 →
       short1 ≠ short2).
Proof.
  intros (urls1 & _ & ->)%resolve_urls_unfold
         (urls2 & _ & ->)%resolve_urls_unfold.
  split.
  - intros url url' short (k & Hk & ->)%resolve_loop_entry
                          (k' & Hk' & Heq)%resolve_loop_entry.
    apply short_url_of_inj in Heq as [_ ->].
    apply first_position_lookup in Hk, Hk'. congruence.
  - intros Hid url1 url2 short1 short2 (k1 & _ & ->)%resolve_loop_entry
                                       (k2 & _ & ->)%resolve_loop_entry Heq.
    by apply short_url_of_inj in Heq as [? _].
Qed.

Lemma resolve_urls_collision_free_witness :
  let site u := {| genai.web := Some {| genai.uri := u; genai.title := None |} |} in
  let sites := [site "https://a"; site "https://b"; site "https://a"] in
  ∃ map1 map2,
    resolve_urls sites 1 = Ok map1
    ∧ resolve_urls sites 11 = Ok map2
    ∧ map1 !! "https://a" ≠ map2 !! "https://a".
Proof.
  intros site sites.
  destruct (resolve_urls sites 1) as [map1 |] eqn:H1; [| discriminate H1].
  destruct (resolve_urls sites 11) as [map2 |] eqn:H2; [| discriminate H2].
  exists map1, map2. split; [reflexivity |]. split; [reflexivity |].
  destruct (resolve_urls_collision_free sites sites 1 11 map1 map2 H1 H2)
    as [_ Hacross].
  assert (is_Some (map1 !! "https://a")) as [s1 Hs1].
  { injection H1 as <-. by eexists. }
  assert (is_Some (map2 !! "https://a")) as [s2 Hs2].
  { injection H2 as <-. by eexists. }
  rewrite Hs1, Hs2. intros [= Heq].
  exact (Hacross ltac:(discriminate) _ _ _ _ Hs1 Hs2 Heq).
Defined.

(** ** Failure *)

Lemma traverse_site_uri_raises urls_to_resolve :
  Exists (λ site, genai.web site = None) urls_to_resolve →
  traverse site_uri urls_to_resolve = Raise AttributeError.
Proof.
  induction urls_to_resolve as [|site l IH]; intros Hex.
  { by apply Exists_nil in Hex. }
  simpl. unfold site_uri at 1.
  destruct (genai.web site) as [w |] eqn:Hw; simpl; [| done].
  apply Exists_cons in Hex as [Hsite | Hl]; [congruence |].
  by rewrite IH.
Qed.

(** [resolve_urls] fails exactly when some record has no [web] part, and
    then with [AttributeError]: it never returns a map for part of the
    records. *)
Theorem resolve_urls_raises_iff
    (urls_to_resolve : list genai.GroundingChunk) (id : Z) :
  (resolve_urls urls_to_resolve id = Raise AttributeError
   ↔ Exists (λ site, genai.web site = None) urls_to_resolve)
  ∧ (is_ok (resolve_urls urls_to_resolve id) = true
     ↔ Forall url_bearing urls_to_resolve).
Proof.
  assert (Forall url_bearing urls_to_resolve
          ∨ Exists (λ site, genai.web site = None) urls_to_resolve) as Hcases.
  { induction urls_to_resolve as [|site l [IH | IH]].
    - left. constructor.
    - destruct (genai.web site) as [w |] eqn:Hw.
      + left. constructor; [by exists w | done].
      + right. by left.
    - right. by right. }
  assert (Forall url_bearing urls_to_resolve →
          ¬ Exists (λ site, genai.web site = None) urls_to_resolve) as Hexcl.
  { intros Hall Hex. apply Exists_exists in Hex as (site & Hin & Hnone).
    rewrite Forall_forall in Hall. destruct (Hall site Hin) as [w Hw].
    congruence. }
  unfold resolve_urls. destruct Hcases as [Hall | Hex].
  - rewrite traverse_site_uri by done. simpl. split; split; try done.
    intros Hex. by destruct (Hexcl Hall Hex).
  - rewrite traverse_site_uri_raises by done. simpl. split; split; try done.
    intros Hall. by destruct (Hexcl Hall Hex).
Qed.

End ResolverMore.

(* ================================================================== *)
(** * More on the citation extractor *)
(* ================================================================== *)

Module ExtractorMore.

Import utils PyFacts ExtractorFacts.

#[local] Arguments segment_of_index : simpl never.

(** The grounding chunks and supports of the candidate [get_citations]
    reads, when there are any. *)
Definition response_metadata (response : genai.Response)
    : option genai.GroundingMetadata :=
  match genai.candidates response with
  | Some (candidate :: _) => genai.grounding_metadata candidate
  | _ => None
  end.

Definition response_chunks (response : genai.Response)
    : list genai.GroundingChunk :=
  default [] (md ← response_metadata response; genai.grounding_chunks md).

Definition response_supports (response : genai.Response)
    : list genai.GroundingSupport :=
  default [] (md ← response_metadata response; genai.grounding_supports md).

(** The span a support gives rise to: none without a segment or without an
    end offset, and a missing start offset counts as 0. *)
Definition support_span (support : genai.GroundingSupport) : option (Z * Z) :=
  seg ← genai.segment support;
  e ← genai.end_index seg;
  Some (default 0 (genai.start_index seg), e).

Definition span (c : Citation) : Z * Z := (start_index c, end_index c).

Lemma citation_of_support_span chunks resolved_urls_map support r :
  citation_of_support chunks resolved_urls_map support = Ok r →
  span <$> r = support_span support.
Proof.
  unfold citation_of_support, support_span.
  destruct (genai.segment support) as [seg |]; simpl; [| by intros [= <-]].
  destruct (genai.end_index seg) as [e |]; simpl; [| by intros [= <-]].
  match goal with |- context [mbind _ ?x] => destruct x as [segs |] end;
    simpl; [| done].
  by intros [= <-].
Qed.

Lemma citations_of_supports_spans chunks resolved_urls_map supports cs :
  citations_of_supports chunks resolved_urls_map supports = Ok cs →
  map span cs = omap support_span supports.
Proof.
  revert cs. induction supports as [|support supports IH]; intros cs; simpl.
  { by intros [= <-]. }
  destruct (citation_of_support chunks resolved_urls_map support) as [r |] eqn:Hr;
    simpl; [| done].
  destruct (citations_of_supports chunks resolved_urls_map supports) as [cs' |];
    simpl; [| done].
  intros [= <-]. apply citation_of_support_span in Hr. rewrite <- Hr.
  destruct r as [c |]; simpl; by rewrite (IH cs' eq_refl).
Qed.

Lemma get_citations_unfold response resolved_urls_map cs :
  get_citations response resolved_urls_map = Ok cs →
  citations_of_supports (Some (response_chunks response)) resolved_urls_map
    (response_supports response) = Ok cs
  ∨ (cs = [] ∧ response_supports response = [])
  ∨ (∃ md, response_metadata response = Some md
           ∧ genai.grounding_chunks md = None
           ∧ citations_of_supports None resolved_urls_map
               (response_supports response) = Ok cs).
Proof.
  unfold get_citations, response_chunks, response_supports, response_metadata.
  destruct (genai.candidates response) as [[|candidate others] |];
    try (intros [= <-]; right; left; done).
  destruct (genai.grounding_metadata candidate) as [md |]; simpl;
    [| intros [= <-]; right; left; done].
  destruct (genai.grounding_supports md) as [supports |]; simpl; [| done].
  destruct (genai.grounding_chunks md) as [chunks |] eqn:Hchunks; simpl.
  - by left.
  - intros Hcs. right. right. by exists md.
Qed.

(** The citations are the supports that have a segment with an end offset,
    in the order of the supports, each with its offsets — a missing start
    offset read as 0.  No citation is lost because of its chunks. *)
Theorem get_citations_spans
    (response : genai.Response) (resolved_urls_map : gmap string string)
    (citations : list Citation) :
  get_citations response resolved_urls_map = Ok citations →
  map (λ c, (start_index c, end_index c)) citations
  = omap support_span (response_supports response).
Proof.
  intros [Hcs | [[-> ->] | (md & _ & _ & Hcs)]]%get_citations_unfold;
    [| done |]; by apply citations_of_supports_spans in Hcs.
Qed.

Lemma get_citations_spans_witness :
  let support s e :=
    {| genai.segment := Some {| genai.start_index := s; genai.end_index := e |};
       genai.grounding_chunk_indices := Some [7] |} in
  let response :=
    {| genai.text := "Sales rose. Costs fell.";
       genai.candidates :=
         Some [ {| genai.grounding_metadata :=
                     Some {| genai.grounding_chunks := Some [];
                             genai.grounding_supports :=
                               Some [ support None (Some 11);
                                      support (Some 3) None;
                                      support (Some 12) (Some 23) ] |} |} ] |} in
  ∃ citations,
    get_citations response ∅ = Ok citations
    ∧ map (λ c, (start_index c, end_index c)) citations = [(0, 11); (12, 23)].
Proof.
  intros support response.
  destruct (get_citations response ∅) as [citations |] eqn:Hcs;
    [| discriminate Hcs].
  exists citations. split; [reflexivity |].
  exact (get_citations_spans response ∅ citations Hcs).
Defined.

(** ** Where the sources come from *)

Lemma index_elem_of {A} (l : list A) i a : index l i = Ok a → a ∈ l.
Proof.
  unfold index. destruct (_ && _); [| done].
  destruct (l !! _) as [a' |] eqn:Hl; [| done].
  intros [= <-]. by eapply list_elem_of_lookup_2.
Qed.

Lemma first_dot_decompose t :
  contains "." t = true →
  ∃ pre post, t = pre +:+ String "." post ∧ contains "." pre = false.
Proof.
  induction t as [|c t IH]; [done |].
  rewrite contains_dot_cons. destruct (Ascii.eqb_spec c ".") as [-> | Hc]; simpl.
  - intros _. by exists "", t.
  - intros (pre & post & -> & Hpre)%IH. exists (String c pre), post.
    split; [done |]. rewrite contains_dot_cons, Hpre.
    by destruct (Ascii.eqb_spec c ".").
Qed.

Lemma label_of_title_inv t lbl :
  label_of_title t = Ok lbl →
  ∃ post, t = lbl +:+ String "." post ∧ contains "." lbl = false.
Proof.
  intros Hlbl. destruct (contains "." t) eqn:Hdot.
  - destruct (first_dot_decompose t Hdot) as (pre & post & -> & Hpre).
    rewrite label_of_title_first_segment in Hlbl by done.
    injection Hlbl as <-. by exists post.
  - by rewrite label_of_title_without_dot in Hlbl.
Qed.

(** A source is backed by a chunk of the response: its [value] is the
    chunk's URI, its [short_url] what the map holds for that URI, and its
    [label] the part of the chunk's title before the first ['.']. *)
Definition backed (chunks : list genai.GroundingChunk)
    (resolved_urls_map : gmap string string) (s : Source) : Prop :=
  ∃ chunk w t post,
    chunk ∈ chunks
    ∧ genai.web chunk = Some w
    ∧ genai.title w = Some t
    ∧ t = label s +:+ String "." post
    ∧ contains "." (label s) = false
    ∧ value s = genai.uri w
    ∧ short_url s = resolved_urls_map !! genai.uri w.

Lemma segment_of_index_backed chunks resolved_urls_map ind s :
  segment_of_index chunks resolved_urls_map ind = Ok s →
  backed (default [] chunks) resolved_urls_map s.
Proof.
  unfold segment_of_index. destruct chunks as [chunks |]; [| done].
  destruct (index chunks ind) as [chunk |] eqn:Hchunk; simpl; [| done].
  destruct (genai.web chunk) as [w |] eqn:Hw; simpl; [| done].
  destruct (genai.title w) as [t |] eqn:Ht; simpl; [| done].
  destruct (label_of_title t) as [lbl |] eqn:Hlbl; simpl; [| done].
  intros [= <-]. apply label_of_title_inv in Hlbl as (post & -> & Hdot).
  exists chunk, w, (lbl +:+ String "." post), post. simpl.
  repeat split; try done.
  by eapply index_elem_of.
Qed.

Lemma collect_segments_backed chunks resolved_urls_map inds acc segs :
  collect_segments chunks resolved_urls_map inds acc = Ok segs →
  Forall (backed (default [] chunks) resolved_urls_map) acc →
  Forall (backed (default [] chunks) resolved_urls_map) segs.
Proof.
  revert acc. induction inds as [|ind inds IH]; intros acc; simpl.
  { by intros [= <-]. }
  destruct (segment_of_index chunks resolved_urls_map ind) as [s | e] eqn:Hs.
  - intros Hsegs Hacc. eapply IH; [done |].
    apply Forall_app. split; [done |]. constructor; [| done].
    by eapply segment_of_index_backed.
  - destruct e; try done; apply IH.
Qed.

Lemma citations_of_supports_backed chunks resolved_urls_map supports cs :
  citations_of_supports chunks resolved_urls_map supports = Ok cs →
  Forall (λ c, Forall (backed (default [] chunks) resolved_urls_map) (segments c))
         cs.
Proof.
  revert cs. induction supports as [|support supports IH]; intros cs; simpl.
  { intros [= <-]. constructor. }
  destruct (citation_of_support chunks resolved_urls_map support) as [r |] eqn:Hr;
    simpl; [| done].
  destruct (citations_of_supports chunks resolved_urls_map supports) as [cs' |];
    simpl; [| done].
  intros [= <-]. specialize (IH cs' eq_refl).
  destruct r as [c |]; [| done]. constructor; [| done].
  unfold citation_of_support in Hr.
  destruct (genai.segment support) as [seg |]; [| done].
  destruct (genai.end_index seg) as [e |]; [| done].
  assert (∀ segs,
    match genai.grounding_chunk_indices support with
    | Some (ind :: inds) =>
        collect_segments chunks resolved_urls_map (ind :: inds) []
    | _ => Ok []
    end = Ok segs →
    Forall (backed (default [] chunks) resolved_urls_map) segs) as Hall.
  { intros segs.
    destruct (genai.grounding_chunk_indices support) as [[|ind inds] |];
      try (intros [= <-]; constructor).
    intros Hsegs. eapply collect_segments_backed; [exact Hsegs | constructor]. }
  match type of Hr with
  | context [mbind _ ?x] => destruct x as [segs |] eqn:Hsegs
  end; simpl in Hr; [| done].
  injection Hr as <-. simpl. by apply Hall.
Qed.

Lemma get_citations_backed response resolved_urls_map citations c s :
  get_citations response resolved_urls_map = Ok citations →
  c ∈ citations → s ∈ segments c →
  backed (response_chunks response) resolved_urls_map s.
Proof.
  intros Hcs Hc Hs.
  apply get_citations_unfold in Hcs
    as [Hcs | [[-> _] | (md & Hmd & Hnone & Hcs)]].
  - apply citations_of_supports_backed in Hcs. simpl in Hcs.
    rewrite Forall_forall in Hcs. specialize (Hcs c Hc).
    rewrite Forall_forall in Hcs. by apply Hcs.
  - by apply elem_of_nil in Hc.
  - apply citations_of_supports_backed in Hcs. simpl in Hcs.
    rewrite Forall_forall in Hcs. specialize (Hcs c Hc).
    rewrite Forall_forall in Hcs. specialize (Hcs s Hs).
    destruct Hcs as (chunk & ? & ? & ? & Hin & _). by apply elem_of_nil in Hin.
Qed.

(** Every source of every citation is backed by a chunk of the response:
    nothing is emitted for an index out of range or for a chunk without
    [web] or title, the label never contains a ['.'], and the title always
    continues with a ['.'] after the label. *)
Theorem get_citations_sources_backed
    (response : genai.Response) (resolved_urls_map : gmap string string)
    (citations : list Citation) :
  get_citations response resolved_urls_map = Ok citations →
  ∀ c s, c ∈ citations → s ∈ segments c →
    backed (response_chunks response) resolved_urls_map s.
Proof. intros Hcs c s. by apply get_citations_backed. Qed.

Lemma get_citations_sources_backed_witness :
  let chunk u t := {| genai.web := Some {| genai.uri := u; genai.title := Some t |} |} in
  let response :=
    {| genai.text := "Sales rose.";
       genai.candidates :=
         Some [ {| genai.grounding_metadata :=
                     Some {| genai.grounding_chunks :=
                               Some [chunk "https://a" "acme.com";
                                     chunk "https://b" "untitled"];
                             genai.grounding_supports :=
                               Some [ {| genai.segment :=
                                           Some {| genai.start_index := Some 0;
                                                   genai.end_index := Some 11 |};
                                         genai.grounding_chunk_indices :=
                                           Some [0; 1; 5] |} ] |} |} ] |} in
  let c := {| start_index := 0; end_index := 11;
              segments := [ {| label := "acme"; short_url := None;
                               value := "https://a" |} ] |} in
  get_citations response ∅ = Ok [c]
  ∧ backed (response_chunks response) ∅
      {| label := "acme"; short_url := None; value := "https://a" |}.
Proof.
  intros chunk response c.
  assert (get_citations response ∅ = Ok [c]) as Hcs by reflexivity.
  split; [exact Hcs |].
  apply (get_citations_sources_backed response ∅ [c] Hcs c).
  - apply list_elem_of_In. left. reflexivity.
  - apply list_elem_of_In. left. reflexivity.
Defined.

End ExtractorMore.

(* ================================================================== *)
(** * The search task and the final substitution *)
(* ================================================================== *)

Module TaskFacts.

Import state graph reference.
Import ResolverFacts ResolverMore ExtractorMore.

#[local] Arguments utils.resolve_urls : simpl never.
#[local] Arguments utils.get_citations : simpl never.
#[local] Arguments utils.insert_citation_markers : simpl never.

(** ** When a search task completes *)

(** A response the task can process: a first candidate with grounding
    metadata, whose chunks all carry a [web] part and whose supports are a
    list. *)
Definition processable (response : genai.Response) : Prop :=
  ∃ candidate others md chunks supports,
    genai.candidates response = Some (candidate :: others)
    ∧ genai.grounding_metadata candidate = Some md
    ∧ genai.grounding_chunks md = Some chunks
    ∧ Forall url_bearing chunks
    ∧ genai.grounding_supports md = Some supports.

Lemma index_head {A} (l : list A) :
  index l 0 = match l with x :: _ => Ok x | [] => Raise IndexError end.
Proof.
  by destruct l.
Qed.

Lemma resolve_urls_ok_inv chunks id resolved_map :
  utils.resolve_urls chunks id = Ok resolved_map →
  Forall url_bearing chunks
  ∧ resolved_map = utils.resolve_loop id (enumerate (uris chunks)) ∅.
Proof.
  intros Hres.
  assert (Forall url_bearing chunks) as Hall.
  { apply resolve_urls_unfold in Hres as (urls & Hurls & _).
    clear -Hurls. revert urls Hurls.
    induction chunks as [|site l IH]; intros urls Hurls; [constructor |].
    simpl in Hurls. unfold utils.site_uri at 1 in Hurls.
    destruct (genai.web site) as [w |] eqn:Hw; [| done]. simpl in Hurls.
    destruct (traverse utils.site_uri l) as [ys |]; [| done].
    constructor; [by exists w | by eapply IH]. }
  split; [done |].
  unfold utils.resolve_urls in Hres. rewrite traverse_site_uri in Hres by done.
  simpl in Hres. by injection Hres as <-.
Qed.

(** A search task completes exactly on the processable responses; on any
    other response it raises and writes nothing. *)
Theorem web_research_completes_iff
    (task : WebSearchState.t) (configurable : configuration.Configuration)
    (response : genai.Response) :
  is_ok (web_research task configurable response) = true ↔ processable response.
Proof.
  destruct response as [text cands]. unfold web_research, processable. simpl.
  split.
  - destruct cands as [[|[[[[chunks |] [supports |]] |]] others] |];
      simpl; try done.
    + destruct (utils.resolve_urls chunks _) as [resolved |] eqn:Hres;
        simpl; [| done].
      apply resolve_urls_ok_inv in Hres as [Hall _].
      intros _. by eexists _, _, _, _, _.
    + by destruct (utils.resolve_urls chunks _).
  - intros (candidate & others & md & chunks & supports
            & [= ->] & Hmd & Hchunks & Hall & Hsupports).
    simpl. rewrite Hmd. simpl. rewrite Hchunks.
    unfold utils.resolve_urls. rewrite traverse_site_uri by done. simpl.
    unfold utils.get_citations. simpl. rewrite Hmd, Hsupports, Hchunks.
    by destruct (ExtractorFacts.citations_of_supports_ok chunks
                   (utils.resolve_loop (WebSearchState.id task)
                      (enumerate (uris chunks)) ∅) supports) as [cs ->].
Qed.

(** ** The sources a task gathers *)

Definition has_short_url (s : utils.Source) : Prop := is_Some (utils.short_url s).

(** A source of task [id]: its short URL is the one made from [id] and the
    position at which its URI first occurs among the chunks. *)
Definition numbered (id : Z) (chunks : list genai.GroundingChunk)
    (s : utils.Source) : Prop :=
  ∃ k, first_position (utils.value s) (uris chunks) = Some k
       ∧ utils.short_url s = Some (utils.short_url_of id k).

Lemma uris_elem_of chunks chunk w :
  chunk ∈ chunks → genai.web chunk = Some w → genai.uri w ∈ uris chunks.
Proof.
  intros Hin Hw. unfold uris. apply list_elem_of_omap.
  exists chunk. split; [done |]. by rewrite Hw.
Qed.

Lemma web_research_sources task configurable response update :
  web_research task configurable response = Ok update →
  ∃ sources modified_text,
    update = [W_sources_gathered sources;
              W_search_query [WebSearchState.search_query task];
              W_web_research_result [modified_text]]
    ∧ Forall (numbered (WebSearchState.id task) (response_chunks response))
             sources.
Proof.
  unfold web_research. intros Hrun.
  destruct (genai.candidates response) as [candidates |] eqn:Hcands; [| done].
  simpl in Hrun. rewrite index_head in Hrun.
  destruct candidates as [|candidate others]; [done |]. simpl in Hrun.
  destruct (genai.grounding_metadata candidate) as [md |] eqn:Hmd; [| done].
  simpl in Hrun.
  destruct (genai.grounding_chunks md) as [chunks |] eqn:Hchunks; [| done].
  destruct (utils.resolve_urls chunks _) as [resolved |] eqn:Hres; [| done].
  simpl in Hrun.
  destruct (utils.get_citations response resolved) as [citations |] eqn:Hcs;
    [| done].
  simpl in Hrun. injection Hrun as <-. eexists _, _. split; [done |].
  assert (response_chunks response = chunks) as Hrc.
  { unfold response_chunks, response_metadata. rewrite Hcands, Hmd. simpl.
    by rewrite Hchunks. }
  apply resolve_urls_ok_inv in Hres as [_ ->].
  apply Forall_forall. intros s (c & Hc & Hs)%list_elem_of_In%in_flat_map.
  apply list_elem_of_In in Hc, Hs.
  destruct (get_citations_backed _ _ _ c s Hcs Hc Hs)
    as (chunk & w & t & post & Hin & Hw & _ & _ & _ & Hvalue & Hshort).
  rewrite Hrc in *.
  pose proof (uris_elem_of chunks chunk w Hin Hw) as Huri.
  destruct (first_position_is_Some _ _ Huri) as [k Hk].
  exists k. rewrite Hvalue. split; [done |].
  rewrite Hshort. unfold enumerate.
  by rewrite (resolve_loop_first _ 0 (uris chunks) ∅ (genai.uri w) k).
Qed.

(** Every source a task gathers carries a short URL, the one the resolver
    made from the task's id and the position of the source's URI among the
    chunks: no source of a completed task has [short_url = None]. *)
Theorem web_research_sources_numbered
    (task : WebSearchState.t) (configurable : configuration.Configuration)
    (response : genai.Response) (update : list write) :
  web_research task configurable response = Ok update →
  ∃ sources modified_text,
    update = [W_sources_gathered sources;
              W_search_query [WebSearchState.search_query task];
              W_web_research_result [modified_text]]
    ∧ ∀ s, s ∈ sources →
        ∃ k, first_position (utils.value s) (uris (response_chunks response))
             = Some k
             ∧ utils.short_url s
               = Some (utils.short_url_of (WebSearchState.id task) k).
Proof.
  intros (sources & modified_text & -> & Hall)%web_research_sources.
  exists sources, modified_text. split; [done |].
  intros s Hs. rewrite Forall_forall in Hall. by apply Hall.
Qed.

Lemma web_research_sources_numbered_witness :
  let task := {| WebSearchState.search_query := "sales and costs";
                 WebSearchState.id := 4 |} in
  ∃ sources modified_text,
    web_research task configuration.defaults GraphFacts.eleven_sources
    = Ok [W_sources_gathered sources;
          W_search_query ["sales and costs"];
          W_web_research_result [modified_text]]
    ∧ ∀ s, s ∈ sources → ∃ k, utils.short_url s = Some (utils.short_url_of 4 k).
Proof.
  intros task.
  destruct (web_research task configuration.defaults GraphFacts.eleven_sources)
    as [update |] eqn:Hrun; [| discriminate Hrun].
  destruct (web_research_sources_numbered _ _ _ _ Hrun)
    as (sources & modified_text & -> & Hall).
  exists sources, modified_text. split; [reflexivity |].
  intros s Hs. destruct (Hall s Hs) as (k & _ & Hk). by exists k.
Defined.

(** ** The final substitution *)

Lemma substitute_sources_ok sources content unique_sources :
  Forall has_short_url sources →
  ∃ r, substitute_sources sources content unique_sources = Ok r.
Proof.
  intros Hall. revert content unique_sources.
  induction Hall as [|source sources [short Hshort] _ IH];
    intros content unique_sources; simpl; [by eexists |].
  rewrite Hshort. destruct (contains short content); apply IH.
Qed.

Lemma substitute_sources_raises sources content unique_sources :
  Exists (λ s, utils.short_url s = None) sources →
  substitute_sources sources content unique_sources = Raise TypeError.
Proof.
  revert content unique_sources.
  induction sources as [|source sources IH]; intros content unique_sources Hex.
  { by apply Exists_nil in Hex. }
  simpl. destruct (utils.short_url source) as [short |] eqn:Hshort; [| done].
  apply Exists_cons in Hex as [Hsource | Hrest]; [congruence |].
  destruct (contains short content); by apply IH.
Qed.

(** [finalize_answer] completes exactly when every gathered source carries
    a short URL; one source without it makes the node raise [TypeError],
    wherever it stands in the list and whatever the answer text. *)
Theorem finalize_answer_completes_iff
    (st : State) (configurable : configuration.Configuration)
    (content : string) :
  (is_ok (finalize_answer st configurable content) = true
   ↔ Forall has_short_url (sources_gathered st))
  ∧ (finalize_answer st configurable content = Raise TypeError
     ↔ Exists (λ s, utils.short_url s = None) (sources_gathered st)).
Proof.
  unfold finalize_answer.
  assert (Forall has_short_url (sources_gathered st)
          ∨ Exists (λ s, utils.short_url s = None) (sources_gathered st))
    as Hcases.
  { induction (sources_gathered st) as [|s l [IH | IH]].
    - left. constructor.
    - destruct (utils.short_url s) as [short |] eqn:Hs.
      + left. constructor; [by exists short | done].
      + right. by left.
    - right. by right. }
  assert (Forall has_short_url (sources_gathered st) →
          ¬ Exists (λ s, utils.short_url s = None) (sources_gathered st))
    as Hexcl.
  { intros Hall Hex. apply Exists_exists in Hex as (s & Hin & Hnone).
    rewrite Forall_forall in Hall. destruct (Hall s Hin) as [short Hs].
    congruence. }
  destruct Hcases as [Hall | Hex].
  - destruct (substitute_sources_ok _ content [] Hall) as [[c u] ->]. simpl.
    split; split; try done. intros Hex. by destruct (Hexcl Hall Hex).
  - rewrite substitute_sources_raises by done. simpl.
    split; split; try done. intros Hall. by destruct (Hexcl Hall Hex).
Qed.

Lemma substitute_sources_sublist sources content unique_sources final emitted :
  substitute_sources sources content unique_sources = Ok (final, emitted) →
  ∃ added, emitted = unique_sources ++ added ∧ added `sublist_of` sources.
Proof.
  revert content unique_sources.
  induction sources as [|source sources IH]; intros content unique_sources; simpl.
  { intros [= <- <-]. exists []. by rewrite app_nil_r. }
  destruct (utils.short_url source) as [short |]; [| done].
  destruct (contains short content).
  - intros (added & -> & Hsub)%IH. exists (source :: added).
    split; [by rewrite <- app_assoc | by apply sublist_skip].
  - intros (added & -> & Hsub)%IH. exists added.
    split; [done | by apply sublist_cons].
Qed.

(** The emitted reference list is a sub-list of the gathered sources: the
    node emits only sources that were gathered, in the order in which they
    were gathered, and none more often than it was gathered. *)
Theorem finalize_answer_emits_sublist
    (st : State) (configurable : configuration.Configuration)
    (content : string) (update : list write) :
  finalize_answer st configurable content = Ok update →
  ∃ final emitted,
    update = [W_messages [AIMessage final]; W_sources_gathered emitted]
    ∧ emitted `sublist_of` sources_gathered st.
Proof.
  unfold finalize_answer.
  destruct (substitute_sources (sources_gathered st) content [])
    as [[final emitted] |] eqn:Hsub; simpl; [| done].
  intros [= <-]. exists final, emitted. split; [done |].
  by apply substitute_sources_sublist in Hsub as (added & -> & Hsub).
Qed.

Lemma finalize_answer_emits_sublist_witness :
  let st :=
    merge (initial_state [HumanMessage "question"] None None None)
      [W_sources_gathered [GraphFacts.source_1; GraphFacts.source_10]] in
  let content := "Costs fell [site10](https://vertexaisearch.cloud.google.com/id/0-10)." in
  ∃ final emitted,
    finalize_answer st configuration.defaults content
    = Ok [W_messages [AIMessage final]; W_sources_gathered emitted]
    ∧ emitted `sublist_of` [GraphFacts.source_1; GraphFacts.source_10].
Proof.
  intros st content.
  destruct (finalize_answer st configuration.defaults content)
    as [update |] eqn:Hrun; [| discriminate Hrun].
  destruct (finalize_answer_emits_sublist _ _ _ _ Hrun)
    as (final & emitted & -> & Hsub).
  by exists final, emitted.
Defined.

Lemma substitute_sources_unmentioned sources content unique_sources :
  Forall (λ s, ∃ short, utils.short_url s = Some short
                        ∧ contains short content = false) sources →
  substitute_sources sources content unique_sources = Ok (content, unique_sources).
Proof.
  induction 1 as [|source sources (short & Hshort & Hnot) _ IH]; simpl; [done |].
  by rewrite Hshort, Hnot.
Qed.

(** When the short URL of no gathered source occurs in the answer, the
    answer is emitted as it is and the emitted reference list is empty. *)
Theorem finalize_answer_nothing_cited
    (st : State) (configurable : configuration.Configuration)
    (content : string) :
  (∀ s, s ∈ sources_gathered st →
        ∃ short, utils.short_url s = Some short
                 ∧ contains short content = false) →
  finalize_answer st configurable content
  = Ok [W_messages [AIMessage content]; W_sources_gathered []].
Proof.
  intros Hnone. unfold finalize_answer.
  rewrite substitute_sources_unmentioned; [done |].
  by apply Forall_forall.
Qed.

Lemma finalize_answer_nothing_cited_witness :
  let st :=
    merge (initial_state [HumanMessage "question"] None None None)
      [W_sources_gathered [GraphFacts.source_1; GraphFacts.source_10]] in
  finalize_answer st configuration.defaults "Costs fell."
  = Ok [W_messages [AIMessage "Costs fell."]; W_sources_gathered []].
Proof.
  intros st.
  apply (finalize_answer_nothing_cited st configuration.defaults "Costs fell.").
  intros s Hs%list_elem_of_In.
  destruct Hs as [<- | [<- | []]]; eexists; (split; [reflexivity | reflexivity]).
Defined.

End TaskFacts.

(* ================================================================== *)
(** * Invariants of a run *)
(* ================================================================== *)

Module RunFacts.

Import state graph reference.
Import GraphFacts TaskFacts.

(** ** What each step leaves untouched *)

Lemma merge_generate_query_keeps st configurable result_query :
  let st' := merge st (generate_query st configurable result_query) in
  web_research_result st' = web_research_result st
  ∧ sources_gathered st' = sources_gathered st
  ∧ follow_up_queries st' = follow_up_queries st.
Proof. by destruct st. Qed.

Lemma merge_reflection_keeps st configurable result :
  let st' := merge st (reflection st configurable result) in
  web_research_result st' = web_research_result st
  ∧ sources_gathered st' = sources_gathered st.
Proof. by destruct st. Qed.

Lemma merge_task_update st sources query modified_text :
  let st' := merge st [W_sources_gathered sources; W_search_query [query];
                       W_web_research_result [modified_text]] in
  sources_gathered st' = sources_gathered st ++ sources
  ∧ web_research_result st' = web_research_result st ++ [modified_text]
  ∧ follow_up_queries st' = follow_up_queries st.
Proof. by destruct st. Qed.

(** A batch that completes adds one result text per task, leaves the
    follow-up queries alone, and gathers only sources with a short URL. *)
Lemma run_batch_effect w configurable batch st st' :
  run_batch w configurable batch st = Ok st' →
  length (web_research_result st')
  = (length (web_research_result st) + length batch)%nat
  ∧ follow_up_queries st' = follow_up_queries st
  ∧ (Forall has_short_url (sources_gathered st) →
     Forall has_short_url (sources_gathered st')).
Proof.
  revert st. induction batch as [|task batch IH]; intros st Hrun; simpl in *.
  - injection Hrun as <-. repeat split; [lia | done].
  - destruct (web_research _ _ _) as [update |] eqn:Htask; [| done].
    simpl in Hrun. apply IH in Hrun as (Hlen & Hfollow & Hshort).
    apply web_research_sources in Htask
      as (sources & modified_text & -> & Hnumbered).
    destruct (merge_task_update st sources
                (WebSearchState.search_query (arg task)) modified_text)
      as (Hs & Hr & Hf).
    rewrite Hlen, Hfollow, Hr, Hf, length_app. simpl.
    repeat split; [lia |]. intros Hold. apply Hshort. rewrite Hs.
    apply Forall_app. split; [done |].
    eapply Forall_impl; [exact Hnumbered |].
    intros s (k & _ & Hk). by exists (utils.short_url_of
                                        (WebSearchState.id (arg task)) k).
Qed.

(** ** A rule for the loop

    [J] relates the state and the trace at the start of a turn; [T] is what
    is to hold of the state and the trace the loop ends with. *)
Lemma research_loop_rule w configurable (J T : State → list event → Prop) :
  (∀ st tr batch, J st tr → T st (tr ++ map Dispatched batch)) →
  (∀ st tr batch st1,
     J st tr → run_batch w configurable batch st = Ok st1 →
     let tr1 := tr ++ map Dispatched batch in
     let st2 :=
       merge st1 (reflection st1 configurable
                    (reasoner w (length (reflections tr1)))) in
     J st2 (tr1 ++ [Reflected st2]) ∧ T st2 (tr1 ++ [Reflected st2])) →
  ∀ fuel st batch tr,
    J st tr →
    let out := research_loop fuel w configurable st batch tr in
    T (final_state out) (trace out).
Proof.
  intros Hstop Hturn. induction fuel as [|fuel IH]; intros st batch tr HJ.
  { rewrite research_loop_O. simpl. by apply Hstop. }
  destruct (decide (batch = [])) as [-> | Hne].
  { rewrite research_loop_nil. simpl. by apply (Hstop st tr []). }
  rewrite research_loop_S by done. cbv zeta.
  destruct (run_batch w configurable batch st) as [st1 |] eqn:Hbatch;
    [| simpl; by apply Hstop].
  destruct (Hturn st tr batch st1 HJ Hbatch) as [HJ2 HT2].
  set (st2 := merge st1 _) in *. set (tr2 := _ ++ [Reflected st2]) in *.
  destruct (evaluate_research _ configurable) as [[name | batch'] | e];
    simpl; try done.
  by apply IH.
Qed.

(** ** The node [finalize_answer] after a run *)

(** Whatever happens in a run that starts without sources lacking a short
    URL — in particular in a fresh run — the state it ends with can always
    be finalized: [finalize_answer] does not raise, whatever the answer
    text. *)
Theorem finalize_answer_after_run
    (fuel : nat) (w : World) (configurable : configuration.Configuration)
    (st : State) (content : string) :
  Forall has_short_url (sources_gathered st) →
  is_ok (finalize_answer (final_state (run fuel w configurable st))
           configurable content) = true.
Proof.
  intros Hst. unfold run. set (initial := merge st _).
  assert (Forall has_short_url (sources_gathered initial)) as Hinitial.
  { destruct (merge_generate_query_keeps st configurable
                (query_writer w (number_queries st configurable)))
      as (_ & Hs & _).
    fold initial in Hs. by rewrite Hs. }
  pose proof (research_loop_rule w configurable
                (λ s _, Forall has_short_url (sources_gathered s))
                (λ s _, Forall has_short_url (sources_gathered s))) as Hrule.
  cbv zeta in Hrule.
  assert (Forall has_short_url
            (sources_gathered
               (final_state (research_loop fuel w configurable initial
                               (continue_to_web_research initial) []))))
    as Hfinal.
  { apply Hrule; [done | | done].
    intros s tr batch s1 Hs Hbatch.
    apply run_batch_effect in Hbatch as (_ & _ & Hkeep).
    destruct (merge_reflection_keeps s1 configurable
                (reasoner w (length (reflections (tr ++ map Dispatched batch)))))
      as (_ & Hsame).
    rewrite Hsame. split; by apply Hkeep. }
  unfold finalize_answer.
  by destruct (substitute_sources_ok _ content [] Hfinal) as [[c u] ->].
Qed.

Lemma finalize_answer_after_run_witness :
  let w := constant_world ["q1"; "q2"] never_sufficient in
  let st := initial_state [HumanMessage "question"] None None None in
  Forall has_short_url (sources_gathered st)
  ∧ is_ok (finalize_answer (final_state (run 2 w configuration.defaults st))
             configuration.defaults "Sales rose.") = true.
Proof.
  intros w st.
  assert (Forall has_short_url (sources_gathered st)) as Hst by constructor.
  split; [exact Hst |].
  exact (finalize_answer_after_run 2 w configuration.defaults st "Sales rose." Hst).
Defined.

(** ** The loop counter *)

Lemma reflections_snoc tr batch st :
  reflections ((tr ++ map Dispatched batch) ++ [Reflected st])
  = reflections tr ++ [st].
Proof.
  rewrite !reflections_app, reflections_batch. by rewrite app_nil_r.
Qed.

Lemma reflections_dispatch tr batch :
  reflections (tr ++ map Dispatched batch) = reflections tr.
Proof. by rewrite reflections_app, reflections_batch, app_nil_r. Qed.

(** In a fresh run the [n]-th reflection leaves [research_loop_count = n]:
    the counter is the number of reflections done, and it is what
    [evaluate_research] compares with the bound. *)
Theorem research_loop_count_is_round
    (fuel : nat) (w : World) (configurable : configuration.Configuration)
    (st : State) :
  research_loop_count st = None →
  let rounds := reflections (trace (run fuel w configurable st)) in
  map research_loop_count rounds
  = map (λ n, Some (Z.of_nat n)) (seq 1 (length rounds)).
Proof.
  intros Hfresh rounds. subst rounds. unfold run. set (initial := merge st _).
  assert (research_loop_count initial = None) as Hinitial.
  { destruct (merge_generate_query st configurable
                (query_writer w (number_queries st configurable)))
      as (_ & _ & Hc).
    fold initial in Hc. by rewrite Hc. }
  pose (T := λ (_ : State) tr,
          map research_loop_count (reflections tr)
          = map (λ n, Some (Z.of_nat n)) (seq 1 (length (reflections tr)))).
  pose (J := λ s tr,
          default 0 (research_loop_count s)
          = Z.of_nat (length (reflections tr)) ∧ T s tr).
  apply (research_loop_rule w configurable J T).
  - intros s tr batch [_ HT]. unfold T in *. by rewrite reflections_dispatch.
  - intros s tr batch s1 [Hcount HT] Hbatch. cbv zeta.
    apply run_batch_ok in Hbatch as (_ & _ & Hcount1).
    set (result := reasoner w _).
    destruct (merge_reflection s1 configurable result) as (_ & Hc2 & _).
    set (st2 := merge s1 (reflection s1 configurable result)) in *.
    assert (T st2 ((tr ++ map Dispatched batch) ++ [Reflected st2])) as HT2.
    { unfold T in *. rewrite reflections_snoc, map_app, length_app, HT.
      change (map research_loop_count [st2]) with [research_loop_count st2].
      change (length [st2]) with 1%nat.
      rewrite Nat.add_1_r, seq_S, map_app, Hc2, Hcount1, Hcount.
      change (map (λ n, Some (Z.of_nat n)) [(1 + length (reflections tr))%nat])
        with [Some (Z.of_nat (1 + length (reflections tr)))].
      do 3 f_equal. lia. }
    split; [| done]. split; [| done].
    rewrite Hc2, Hcount1, Hcount, reflections_snoc, length_app.
    change (length [st2]) with 1%nat.
    change (default 0 (Some (Z.of_nat (length (reflections tr)) + 1)))
      with (Z.of_nat (length (reflections tr)) + 1).
    lia.
  - split; [by rewrite Hinitial | done].
Qed.

Lemma research_loop_count_is_round_witness :
  let w := constant_world ["q1"; "q2"] never_sufficient in
  let st := initial_state [HumanMessage "question"] None None None in
  let rounds :=
    reflections (trace (run 3 w (with_max_research_loops 3) st)) in
  research_loop_count st = None
  ∧ length rounds = 3%nat
  ∧ map research_loop_count rounds
    = map (λ n, Some (Z.of_nat n)) (seq 1 (length rounds)).
Proof.
  intros w st rounds. split; [reflexivity |]. split; [vm_compute; reflexivity |].
  exact (research_loop_count_is_round 3 w (with_max_research_loops 3) st eq_refl).
Defined.

(** ** Results and queries at each reflection *)

Lemma issued_at_reflections_app issued tr1 tr2 :
  issued_at_reflections issued (tr1 ++ tr2)
  = issued_at_reflections issued tr1
    ++ issued_at_reflections (issued + length (dispatched tr1)) tr2.
Proof.
  revert issued. induction tr1 as [|[task | s] tr1 IH]; intros issued.
  - simpl. by rewrite Nat.add_0_r.
  - change (issued_at_reflections (S issued) (tr1 ++ tr2)
            = issued_at_reflections (S issued) tr1
              ++ issued_at_reflections
                   (issued + S (length (dispatched tr1))) tr2).
    rewrite IH. do 2 f_equal. lia.
  - change (issued :: issued_at_reflections issued (tr1 ++ tr2)
            = (issued :: issued_at_reflections issued tr1)
              ++ issued_at_reflections (issued + length (dispatched tr1)) tr2).
    by rewrite IH.
Qed.

Lemma issued_at_reflections_batch issued batch :
  issued_at_reflections issued (map Dispatched batch) = [].
Proof.
  revert issued. induction batch as [|task batch IH]; intros issued; [done |].
  apply IH.
Qed.

Lemma issued_dispatch tr batch :
  issued_at_reflections 0 (tr ++ map Dispatched batch)
  = issued_at_reflections 0 tr.
Proof.
  by rewrite issued_at_reflections_app, issued_at_reflections_batch, app_nil_r.
Qed.

Lemma issued_snoc tr batch st :
  issued_at_reflections 0 ((tr ++ map Dispatched batch) ++ [Reflected st])
  = issued_at_reflections 0 tr ++ [(length (dispatched tr) + length batch)%nat].
Proof.
  rewrite issued_at_reflections_app, issued_dispatch.
  by rewrite dispatched_app, dispatched_batch, length_app.
Qed.

Lemma dispatched_snoc tr batch st :
  dispatched ((tr ++ map Dispatched batch) ++ [Reflected st])
  = dispatched tr ++ batch.
Proof.
  rewrite !dispatched_app, dispatched_batch.
  change (dispatched [Reflected st]) with (@nil Send). by rewrite app_nil_r.
Qed.

(** The measure [f] of the state at every reflection is [base] plus the
    number of tasks dispatched so far, when every completed task adds one
    to it and nothing else changes it. *)
Lemma research_loop_tally (f : State → nat) w configurable fuel st batch tr base :
  (∀ s b s1, run_batch w configurable b s = Ok s1 →
             f s1 = (f s + length b)%nat) →
  (∀ s result, f (merge s (reflection s configurable result)) = f s) →
  f st = (base + length (dispatched tr))%nat →
  map f (reflections tr)
  = map (λ issued, (base + issued)%nat) (issued_at_reflections 0 tr) →
  let out := research_loop fuel w configurable st batch tr in
  map f (reflections (trace out))
  = map (λ issued, (base + issued)%nat) (issued_at_reflections 0 (trace out)).
Proof.
  intros Hbatch Hreflect Hst Htr.
  pose (T := λ (_ : State) tr,
          map f (reflections tr)
          = map (λ issued, (base + issued)%nat) (issued_at_reflections 0 tr)).
  pose (J := λ s tr, f s = (base + length (dispatched tr))%nat ∧ T s tr).
  apply (research_loop_rule w configurable J T); [| | by split].
  - intros s tr' b [_ HT]. unfold T in *.
    by rewrite reflections_dispatch, issued_dispatch.
  - intros s tr' b s1 [Hs HT] Hrun. cbv zeta.
    set (st2 := merge s1 _).
    assert (f st2 = (base + length (dispatched tr') + length b)%nat) as Hst2.
    { unfold st2. rewrite Hreflect, (Hbatch _ _ _ Hrun), Hs. lia. }
    assert (T st2 ((tr' ++ map Dispatched b) ++ [Reflected st2])) as HT2.
    { unfold T in *. rewrite reflections_snoc, issued_snoc, !map_app, HT.
      change (map f [st2]) with [f st2]. rewrite Hst2.
      change (map (λ issued, (base + issued)%nat)
                [(length (dispatched tr') + length b)%nat])
        with [(base + (length (dispatched tr') + length b))%nat].
      do 2 f_equal. lia. }
    split; [| done]. split; [| done].
    rewrite Hst2, dispatched_snoc, length_app. lia.
Qed.

(** Fan-in: at every reflection, [web_research_result] holds one text per
    task dispatched so far, on top of what the run started with. *)
Theorem web_research_result_per_task
    (fuel : nat) (w : World) (configurable : configuration.Configuration)
    (st : State) :
  let out := run fuel w configurable st in
  map (λ s, length (web_research_result s)) (reflections (trace out))
  = map (λ issued, (length (web_research_result st) + issued)%nat)
        (issued_at_reflections 0 (trace out)).
Proof.
  intros out. subst out. unfold run. set (initial := merge st _).
  destruct (merge_generate_query_keeps st configurable
              (query_writer w (number_queries st configurable)))
    as (Hr & _ & _).
  fold initial in Hr.
  apply (research_loop_tally (λ s, length (web_research_result s))).
  - intros s b s1 Hrun. by apply run_batch_effect in Hrun as (-> & _).
  - intros s result.
    destruct (merge_reflection_keeps s configurable result) as (Hsame & _).
    by rewrite Hsame.
  - rewrite Hr. change (dispatched []) with (@nil Send). simpl. lia.
  - done.
Qed.

(** At every reflection, [number_of_ran_queries] is the number of tasks
    dispatched so far plus the number of queries that [search_query] held
    when the first batch was dispatched — the generated queries, which the
    tasks of the first batch write a second time. *)
Theorem number_of_ran_queries_law
    (fuel : nat) (w : World) (configurable : configuration.Configuration)
    (st : State) :
  let initial :=
    merge st (generate_query st configurable
                (query_writer w (number_queries st configurable))) in
  let out := run fuel w configurable st in
  map number_of_ran_queries (reflections (trace out))
  = map (λ issued,
           Some (Z.of_nat (length (search_query initial) + issued)))
        (issued_at_reflections 0 (trace out)).
Proof.
  intros initial out. subst out. unfold run. fold initial.
  pose (T := λ (_ : State) tr,
          map number_of_ran_queries (reflections tr)
          = map (λ issued,
                   Some (Z.of_nat (length (search_query initial) + issued)))
                (issued_at_reflections 0 tr)).
  pose (J := λ s tr,
          length (search_query s)
          = (length (search_query initial) + length (dispatched tr))%nat
          ∧ T s tr).
  apply (research_loop_rule w configurable J T).
  - intros s tr b [_ HT]. unfold T in *.
    by rewrite reflections_dispatch, issued_dispatch.
  - intros s tr b s1 [Hs HT] Hrun. cbv zeta.
    apply run_batch_ok in Hrun as (Hlen & _ & _).
    set (result := reasoner w _).
    destruct (merge_reflection s1 configurable result)
      as (_ & _ & Hran & _ & Hq & _).
    set (st2 := merge s1 (reflection s1 configurable result)) in *.
    assert (T st2 ((tr ++ map Dispatched b) ++ [Reflected st2])) as HT2.
    { unfold T in *. rewrite reflections_snoc, issued_snoc, !map_app, HT.
      change (map number_of_ran_queries [st2]) with [number_of_ran_queries st2].
      rewrite Hran, Hlen, Hs.
      change (map (λ issued,
                     Some (Z.of_nat (length (search_query initial) + issued)))
                [(length (dispatched tr) + length b)%nat])
        with [Some (Z.of_nat (length (search_query initial)
                              + (length (dispatched tr) + length b)))].
      do 4 f_equal. lia. }
    split; [| done]. split; [| done].
    rewrite Hq, Hlen, Hs, dispatched_snoc, length_app. lia.
  - split; [| done]. change (dispatched []) with (@nil Send). simpl. lia.
Qed.

(** ** The follow-up queries *)

(** The follow-up queries the first [n] reflections asked for. *)
Definition asked (w : World) (n : nat) : list string :=
  concat (map (λ k, tools_and_schemas.follow_up_queries (reasoner w k))
              (seq 0 n)).

Lemma asked_S w n :
  asked w (S n)
  = asked w n ++ tools_and_schemas.follow_up_queries (reasoner w n).
Proof.
  unfold asked. rewrite seq_S, map_app, concat_app. simpl.
  by rewrite app_nil_r.
Qed.

(** The follow-up queries accumulate: after the [n]-th reflection,
    [follow_up_queries] holds the queries asked for by all the reflections
    so far, those of the earlier rounds first — and it is this whole list
    that [evaluate_research] dispatches again. *)
Theorem follow_up_queries_accumulate
    (fuel : nat) (w : World) (configurable : configuration.Configuration)
    (st : State) :
  let rounds := reflections (trace (run fuel w configurable st)) in
  map follow_up_queries rounds
  = map (λ n, follow_up_queries st ++ asked w (S n)) (seq 0 (length rounds)).
Proof.
  intros rounds. subst rounds. unfold run. set (initial := merge st _).
  destruct (merge_generate_query_keeps st configurable
              (query_writer w (number_queries st configurable)))
    as (_ & _ & Hf).
  fold initial in Hf.
  pose (T := λ (_ : State) tr,
          map follow_up_queries (reflections tr)
          = map (λ n, follow_up_queries st ++ asked w (S n))
                (seq 0 (length (reflections tr)))).
  pose (J := λ s tr,
          follow_up_queries s
          = follow_up_queries st ++ asked w (length (reflections tr))
          ∧ T s tr).
  apply (research_loop_rule w configurable J T).
  - intros s tr b [_ HT]. unfold T in *. by rewrite reflections_dispatch.
  - intros s tr b s1 [Hs HT] Hrun. cbv zeta.
    apply run_batch_effect in Hrun as (_ & Hsame & _).
    rewrite reflections_dispatch.
    set (result := reasoner w (length (reflections tr))).
    destruct (merge_reflection s1 configurable result)
      as (_ & _ & _ & Hfollow & _).
    set (st2 := merge s1 (reflection s1 configurable result)) in *.
    assert (follow_up_queries st2
            = follow_up_queries st ++ asked w (S (length (reflections tr))))
      as Hst2.
    { rewrite Hfollow, Hsame, Hs, asked_S. by rewrite <- app_assoc. }
    assert (T st2 ((tr ++ map Dispatched b) ++ [Reflected st2])) as HT2.
    { unfold T in *. rewrite reflections_snoc, map_app, length_app, HT.
      change (map follow_up_queries [st2]) with [follow_up_queries st2].
      change (length [st2]) with 1%nat.
      rewrite Nat.add_1_r, seq_S, map_app, Hst2. done. }
    split; [| done]. split; [| done].
    rewrite Hst2, reflections_snoc, length_app.
    change (length [st2]) with 1%nat. by rewrite Nat.add_1_r.
  - split; [| done]. rewrite Hf. unfold asked. simpl. by rewrite app_nil_r.
Qed.

End RunFacts.

(* ================================================================== *)
(** * More on the configuration *)
(* ================================================================== *)

Module ConfigurationMore.

Import configuration ConfigurationFacts.

(** The dictionary [configurable] that [from_runnable_config] reads. *)
Definition runtime (config : option RunnableConfig) : gmap string value :=
  match config with
  | Some c => default ∅ (configurable c)
  | None => ∅
  end.

(** The fields by name, with their getters. *)
Definition str_fields : list (string * (Configuration → string)) :=
  [("query_generator_model", query_generator_model);
   ("reflection_model", reflection_model);
   ("answer_model", answer_model)].

Definition int_fields : list (string * (Configuration → Z)) :=
  [("number_of_initial_queries", number_of_initial_queries);
   ("max_research_loops", max_research_loops)].

(** What validation made of each field. *)
Lemma from_runnable_config_fields int_of_str environ config c :
  from_runnable_config int_of_str environ config = Ok c →
  (∀ name get, (name, get) ∈ str_fields →
     field validate_str (raw_value environ (runtime config) name)
       (get defaults) = Ok (get c))
  ∧ (∀ name get, (name, get) ∈ int_fields →
       field (validate_int int_of_str)
         (raw_value environ (runtime config) name) (get defaults)
       = Ok (get c)).
Proof.
  unfold from_runnable_config. fold (runtime config).
  destruct (field validate_str
              (raw_value environ (runtime config) "query_generator_model") _)
    as [qgm |] eqn:Hqgm; simpl; [| done].
  destruct (field validate_str
              (raw_value environ (runtime config) "reflection_model") _)
    as [rm |] eqn:Hrm; simpl; [| done].
  destruct (field validate_str
              (raw_value environ (runtime config) "answer_model") _)
    as [am |] eqn:Ham; simpl; [| done].
  destruct (field (validate_int int_of_str)
              (raw_value environ (runtime config) "number_of_initial_queries") _)
    as [niq |] eqn:Hniq; simpl; [| done].
  destruct (field (validate_int int_of_str)
              (raw_value environ (runtime config) "max_research_loops") _)
    as [mrl |] eqn:Hmrl; simpl; [| done].
  intros [= <-]. split.
  - intros name get Hin%list_elem_of_In.
    destruct Hin as [[= <- <-] | [[= <- <-] | [[= <- <-] | []]]]; done.
  - intros name get Hin%list_elem_of_In.
    destruct Hin as [[= <- <-] | [[= <- <-] | []]]; done.
Qed.

(** The precedence the code implements, for every field of an accepted
    configuration: the environment variable named after the field in upper
    case, if set; else the value under the field's name in
    [config["configurable"]], if any; else the declared default.  An
    integer field set through the environment holds the integer the string
    converts to. *)
Theorem from_runnable_config_precedence
    (int_of_str : string → option Z) (environ : gmap string string)
    (config : option RunnableConfig) (c : Configuration) :
  from_runnable_config int_of_str environ config = Ok c →
  (∀ name get, (name, get) ∈ str_fields →
     match environ !! upper name, runtime config !! name with
     | Some s, _ => get c = s
     | None, Some v => v = VStr (get c)
     | None, None => get c = get defaults
     end)
  ∧ (∀ name get, (name, get) ∈ int_fields →
       match environ !! upper name, runtime config !! name with
       | Some s, _ => int_of_str s = Some (get c)
       | None, Some (VInt z) => get c = z
       | None, Some (VStr s) => int_of_str s = Some (get c)
       | None, None => get c = get defaults
       end).
Proof.
  intros [Hstr Hint]%from_runnable_config_fields. split.
  - intros name get Hin. specialize (Hstr name get Hin).
    unfold raw_value in Hstr.
    destruct (environ !! upper name) as [s |]; simpl in Hstr.
    + by injection Hstr.
    + destruct (runtime config !! name) as [[z | s] |]; simpl in Hstr;
        try done; by injection Hstr as ->.
  - intros name get Hin. specialize (Hint name get Hin).
    unfold raw_value in Hint.
    destruct (environ !! upper name) as [s |]; simpl in Hint.
    + destruct (int_of_str s); [by injection Hint as -> | done].
    + destruct (runtime config !! name) as [[z | s] |]; simpl in Hint.
      * by injection Hint.
      * destruct (int_of_str s); [by injection Hint as -> | done].
      * by injection Hint.
Qed.

Lemma from_runnable_config_precedence_witness :
  let environ : gmap string string := {[ "MAX_RESEARCH_LOOPS" := "7" ]} in
  let config :=
    Some {| configurable := Some {[ "max_research_loops" := VInt 1;
                                    "answer_model" := VStr "model-a" ]} |} in
  let int_of_str := λ s : string, if String.eqb s "7" then Some 7 else None in
  ∃ c, from_runnable_config int_of_str environ config = Ok c
       ∧ int_of_str "7" = Some (max_research_loops c)
       ∧ VStr "model-a" = VStr (answer_model c).
Proof.
  intros environ config int_of_str.
  destruct (from_runnable_config int_of_str environ config) as [c |] eqn:Hc;
    [| discriminate Hc].
  exists c. split; [reflexivity |].
  destruct (from_runnable_config_precedence int_of_str environ config c Hc)
    as [Hstr Hint].
  split.
  - apply (Hint "max_research_loops" max_research_loops).
    apply list_elem_of_In. right. left. reflexivity.
  - apply (Hstr "answer_model" answer_model).
    apply list_elem_of_In. right. right. left. reflexivity.
Defined.

(** ** Rejected configurations *)

Lemma field_cases {A} (validate : value → result A) raw dflt :
  (∀ v, (∃ a, validate v = Ok a) ∨ validate v = Raise ValidationError) →
  (∃ a, field validate raw dflt = Ok a)
  ∨ field validate raw dflt = Raise ValidationError.
Proof. intros Hv. destruct raw as [v |]; simpl; [apply Hv | eauto]. Qed.

Lemma validate_str_cases v :
  (∃ a, validate_str v = Ok a) ∨ validate_str v = Raise ValidationError.
Proof. destruct v; simpl; eauto. Qed.

Lemma validate_int_cases int_of_str v :
  (∃ a, validate_int int_of_str v = Ok a)
  ∨ validate_int int_of_str v = Raise ValidationError.
Proof. destruct v as [z | s]; simpl; [eauto |]. destruct (int_of_str s); eauto. Qed.

(** [from_runnable_config] raises nothing but a validation error; and an
    environment variable that does not convert to an integer makes it raise
    one even when [config["configurable"]] supplies a valid integer for the
    same field. *)
Theorem from_runnable_config_rejects
    (int_of_str : string → option Z) (environ : gmap string string)
    (config : option RunnableConfig) :
  ((∃ c, from_runnable_config int_of_str environ config = Ok c)
   ∨ from_runnable_config int_of_str environ config = Raise ValidationError)
  ∧ (∀ name get s,
       (name, get) ∈ int_fields →
       environ !! upper name = Some s → int_of_str s = None →
       from_runnable_config int_of_str environ config = Raise ValidationError).
Proof.
  assert ((∃ c, from_runnable_config int_of_str environ config = Ok c)
          ∨ from_runnable_config int_of_str environ config
            = Raise ValidationError) as Hcases.
  { unfold from_runnable_config. fold (runtime config).
    repeat match goal with
    | |- context [mbind _ (field validate_str ?raw ?d)] =>
        destruct (field_cases validate_str raw d validate_str_cases)
          as [[? ->] | ->]; simpl; [| by right]
    | |- context [mbind _ (field (validate_int int_of_str) ?raw ?d)] =>
        destruct (field_cases (validate_int int_of_str) raw d
                    (validate_int_cases int_of_str))
          as [[? ->] | ->]; simpl; [| by right]
    end.
    left. by eexists. }
  split; [done |].
  intros name get s Hin Henv Hbad.
  destruct Hcases as [[c Hc] | Hraise]; [| done].
  apply from_runnable_config_fields in Hc as [_ Hint].
  specialize (Hint name get Hin). unfold raw_value in Hint.
  rewrite Henv in Hint. simpl in Hint. by rewrite Hbad in Hint.
Qed.

Lemma from_runnable_config_rejects_witness :
  let environ : gmap string string := {[ "MAX_RESEARCH_LOOPS" := "many" ]} in
  let config :=
    Some {| configurable := Some {[ "max_research_loops" := VInt 3 ]} |} in
  environ !! upper "max_research_loops" = Some "many"
  ∧ from_runnable_config (λ _, None) environ config = Raise ValidationError.
Proof.
  intros environ config. split; [reflexivity |].
  apply (proj2 (from_runnable_config_rejects (λ _, None) environ config)
           "max_research_loops" max_research_loops "many").
  - apply list_elem_of_In. right. left. reflexivity.
  - reflexivity.
  - reflexivity.
Defined.

End ConfigurationMore.

(* ================================================================== *)
(** * [utils.get_research_topic] *)
(* ================================================================== *)

Module topic.

Import state.

Definition newline : ascii := "010"%char.

Definition content (message : Message) : string :=
  match message with
  | HumanMessage c | AIMessage c => c
  end.

(** The line a message adds to the topic of a conversation of several
    messages: [f"User: {content}"] or [f"Assistant: {content}"]. *)
Definition line (message : Message) : string :=
  match message with
  | HumanMessage c => "User: " +:+ c
  | AIMessage c => "Assistant: " +:+ c
  end.

(** [get_research_topic], on the two message classes it tells apart. *)
Definition get_research_topic (messages : list Message) : string :=
  match messages with
  | [message] => content message
  | _ =>
      foldl (λ research_topic message,
               research_topic +:+ line message +:+ String newline "")
            "" messages
  end.

End topic.

Module TopicFacts.

Import state topic PyFacts.

Lemma contains_char_app c a b :
  contains (String c "") (a +:+ b)
  = contains (String c "") a || contains (String c "") b.
Proof.
  induction a as [|x a IH]; rewrite ?str_app_cons, ?str_app_nil_l.
  - by destruct b.
  - rewrite !ResolverMore.contains_char_cons, IH. by rewrite orb_assoc.
Qed.

Lemma split_at_first sep pre post :
  contains (String sep "") pre = false →
  split sep (pre +:+ String sep post) = pre :: split sep post.
Proof.
  induction pre as [|c pre IH]; rewrite ?str_app_cons, ?str_app_nil_l.
  - intros _. simpl. by rewrite Ascii.eqb_refl.
  - rewrite ResolverMore.contains_char_cons. intros [Hc Hpre]%orb_false_elim.
    simpl. rewrite Hc, IH; done.
Qed.

(** The topic of a conversation, line after line. *)
Definition transcript (messages : list Message) : string :=
  foldr (λ message rest, line message +:+ String newline rest) "" messages.

Lemma foldl_transcript messages research_topic :
  foldl (λ research_topic message,
           research_topic +:+ line message +:+ String newline "")
        research_topic messages
  = research_topic +:+ transcript messages.
Proof.
  revert research_topic. induction messages as [|m messages IH];
    intros research_topic; simpl.
  - by rewrite str_app_nil_r.
  - rewrite IH, !str_app_assoc. by rewrite str_app_cons, str_app_nil_l.
Qed.

Definition single_line (message : Message) : Prop :=
  contains (String newline "") (content message) = false.

Lemma line_single_line message :
  single_line message → contains (String newline "") (line message) = false.
Proof.
  unfold single_line. destruct message as [c | c]; simpl; intros Hc;
    by rewrite contains_char_app, Hc.
Qed.

Lemma split_transcript messages :
  Forall single_line messages →
  split newline (transcript messages) = map line messages ++ [""].
Proof.
  induction 1 as [|m messages Hm _ IH]; simpl; [done |].
  rewrite split_at_first by (by apply line_single_line). by rewrite IH.
Qed.

(** For a conversation of several messages — or of none — whose messages
    contain no line break, the topic reads back line by line: splitting it
    at the line breaks gives one line per message, in the order of the
    conversation, each with its speaker, and an empty string after the last
    line break.  A conversation of one message is the exception: its topic
    is the bare content of the message. *)
Theorem get_research_topic_lines (messages : list Message) :
  length messages ≠ 1%nat →
  Forall single_line messages →
  split newline (get_research_topic messages) = map line messages ++ [""].
Proof.
  intros Hlen Hsingle.
  assert (get_research_topic messages = transcript messages) as ->.
  { destruct messages as [|m [|m' messages]]; [done | done |].
    unfold get_research_topic. by rewrite foldl_transcript, str_app_nil_l. }
  by apply split_transcript.
Qed.

Lemma get_research_topic_lines_witness :
  let messages := [HumanMessage "How is Acme doing?";
                   AIMessage "Acme is a company.";
                   HumanMessage "And its shares?"] in
  length messages ≠ 1%nat
  ∧ Forall single_line messages
  ∧ split newline (get_research_topic messages)
    = ["User: How is Acme doing?"; "Assistant: Acme is a company.";
       "User: And its shares?"; ""].
Proof.
  intros messages.
  assert (length messages ≠ 1%nat) as Hlen by (simpl; lia).
  assert (Forall single_line messages) as Hsingle by (by repeat constructor).
  split; [exact Hlen |]. split; [exact Hsingle |].
  exact (get_research_topic_lines messages Hlen Hsingle).
Defined.

End TopicFacts.

(* ================================================================== *)
(** * The length of a run *)
(* ================================================================== *)

Module RunLength.

Import state graph.
Import GraphFacts RunFacts.

(** The routing after the [n]-th reflection (counting from 1) goes to
    [finalize_answer]: that reflection was sufficient, or the bound [M] is
    reached. *)
Definition stops (w : World) (M : Z) (n : nat) : Prop :=
  tools_and_schemas.is_sufficient (reasoner w (n - 1)) = true ∨ M ≤ Z.of_nat n.

(** The [n]-th reflection asks for a follow-up query. *)
Definition goes_on (w : World) (n : nat) : Prop :=
  tools_and_schemas.follow_up_queries (reasoner w (n - 1)) ≠ [].

Lemma research_loop_stops_at fuel w configurable st batch tr (k n : nat) M :
  tasks_complete w configurable →
  configuration.max_research_loops configurable = M →
  default 0 (research_loop_count st) = Z.of_nat k →
  length (reflections tr) = k →
  batch ≠ [] →
  (k < n)%nat → (n - k ≤ fuel)%nat →
  stops w M n →
  (∀ j, (k < j < n)%nat → ¬ stops w M j ∧ goes_on w j) →
  let out := research_loop fuel w configurable st batch tr in
  final_status out = Finalizing ∧ length (reflections (trace out)) = n.
Proof.
  intros Hok HM. revert st batch tr k.
  induction fuel as [|fuel IH];
    intros st batch tr k Hcount Hrounds Hne Hk Hfuel Hstop Hgo out; [lia |].
  subst out. rewrite research_loop_S by done. cbv zeta.
  destruct (run_batch_completes w configurable batch st Hok) as [st1 Hbatch].
  rewrite Hbatch. apply run_batch_ok in Hbatch as (_ & _ & Hcount1).
  rewrite reflections_dispatch, Hrounds.
  set (result := reasoner w k).
  set (st2 := merge st1 (reflection st1 configurable result)).
  pose proof (evaluate_research_after_reflection st1 configurable result)
    as Hroute.
  cbv zeta in Hroute. fold st2 in Hroute. rewrite Hroute.
  destruct (merge_reflection st1 configurable result)
    as (_ & Hcount2 & _ & Hfollow & _ & _).
  fold st2 in Hcount2, Hfollow.
  rewrite HM, Hcount1, Hcount.
  assert (length (reflections ((tr ++ map Dispatched batch) ++ [Reflected st2]))
          = S k) as Hrounds2.
  { rewrite reflections_snoc, length_app, Hrounds. simpl. lia. }
  destruct (decide (S k = n)) as [<- | Hother].
  - assert (tools_and_schemas.is_sufficient result
            || (M <=? Z.of_nat k + 1) = true) as ->.
    { destruct Hstop as [Hs | Hle].
      - replace (S k - 1)%nat with k in Hs by lia. subst result.
        by rewrite Hs.
      - apply orb_true_iff. right. apply Z.leb_le. lia. }
    simpl. by rewrite Hrounds2.
  - destruct (Hgo (S k) ltac:(lia)) as [Hnot Hasks].
    unfold stops in Hnot. unfold goes_on in Hasks.
    replace (S k - 1)%nat with k in Hnot, Hasks by lia.
    assert (tools_and_schemas.is_sufficient result
            || (M <=? Z.of_nat k + 1) = false) as ->.
    { apply orb_false_iff. split.
      - subst result. destruct (tools_and_schemas.is_sufficient _); [| done].
        destruct Hnot. by left.
      - apply Z.leb_gt. lia. }
    apply (IH st2 _ _ (S k)); try done; try lia.
    + rewrite Hcount2, Hcount1, Hcount. simpl. lia.
    + apply follow_up_batch_nonempty. rewrite Hfollow.
      by intros [_ Hnone]%app_eq_nil.
    + intros j Hj. apply Hgo. lia.
Qed.

(** A fresh run whose tasks complete and whose batches are not empty stops
    exactly at the first round that is sufficient or reaches the configured
    bound: if the [n]-th round is such a round and no earlier one is — each
    of these asking for a follow-up query — the run is routed to
    [finalize_answer] after exactly [n] reflections.  In particular the
    configured bound is attained when no reflection is sufficient, whatever
    [max_research_loops] the input state carries. *)
Theorem run_stops_at_first_round
    (fuel : nat) (w : World) (configurable : configuration.Configuration)
    (st : State) (n : nat) :
  research_loop_count st = None →
  tasks_complete w configurable →
  query_writer w (number_queries st configurable) ≠ [] →
  (1 ≤ n ≤ fuel)%nat →
  let M := configuration.max_research_loops configurable in
  (tools_and_schemas.is_sufficient (reasoner w (n - 1)) = true
   ∨ M ≤ Z.of_nat n) →
  (∀ j, (1 ≤ j < n)%nat →
     tools_and_schemas.is_sufficient (reasoner w (j - 1)) = false
     ∧ tools_and_schemas.follow_up_queries (reasoner w (j - 1)) ≠ []
     ∧ Z.of_nat j < M) →
  let out := run fuel w configurable st in
  final_status out = Finalizing ∧ length (reflections (trace out)) = n.
Proof.
  intros Hfresh Hok Hqueries Hn M Hstop Hgo out. subst out. unfold run.
  pose proof (initial_batch_nonempty st configurable _ Hqueries) as Hne.
  set (initial := merge st _) in *.
  destruct (merge_generate_query st configurable
              (query_writer w (number_queries st configurable)))
    as (_ & _ & Hcount).
  fold initial in Hcount.
  apply (research_loop_stops_at fuel w configurable initial _ [] 0 n M);
    try done; try lia.
  - by rewrite Hcount, Hfresh.
  - intros j Hj. destruct (Hgo j ltac:(lia)) as (Hns & Hasks & Hlt).
    split; [| exact Hasks]. intros [Hs | Hle]; [congruence | lia].
Qed.

(** Configured for the default 2 loops, with an input state that asks for
    3: the run stops after the second reflection. *)
Lemma run_stops_at_first_round_witness :
  let w := constant_world ["q1"; "q2"] never_sufficient in
  let st := initial_state [HumanMessage "question"] None (Some 3) None in
  let out := run 5 w configuration.defaults st in
  research_loop_count st = None
  ∧ final_status out = Finalizing
  ∧ length (reflections (trace out)) = 2%nat.
Proof.
  intros w st out. split; [reflexivity |].
  apply (run_stops_at_first_round 5 w configuration.defaults st 2 eq_refl
           (constant_world_completes _ _ _)); cbv zeta.
  - discriminate.
  - lia.
  - right. simpl. lia.
  - intros j Hj. split; [reflexivity |]. split; [discriminate | simpl; lia].
Defined.

(** ** The initial batch *)

Lemma enumerate_from_snd {A} start (l : list A) :
  map snd (enumerate_from start l) = l.
Proof.
  revert start. induction l as [|x l IH]; intros start; simpl; [done |].
  by rewrite IH.
Qed.

(** The initial batch has one task per entry of [search_query], in order,
    each for the node [web_research]: the queries just generated, after any
    query the state already held — which is then searched again. *)
Theorem initial_batch_queries
    (st : State) (configurable : configuration.Configuration)
    (result_query : list string) :
  let batch :=
    continue_to_web_research
      (merge st (generate_query st configurable result_query)) in
  map (λ task, WebSearchState.search_query (arg task)) batch
  = search_query st ++ result_query
  ∧ Forall (λ task, node task = "web_research") batch.
Proof.
  intros batch. subst batch.
  destruct (merge_generate_query st configurable result_query) as (Hq & _).
  unfold continue_to_web_research. rewrite Hq. split.
  - rewrite map_map. unfold enumerate.
    rewrite <- (enumerate_from_snd 0 (search_query st ++ result_query)) at 2.
    apply map_ext. by intros [idx q].
  - apply Forall_forall. intros task (entry & -> & _)%list_elem_of_fmap.
    by destruct entry.
Qed.

End RunLength.
